(** * Grading engine and leaderboard of the coding-challenge backend

    A shallow embedding of [grader.py] (the grading loop, the output
    comparison, the verdict) and of the leaderboard code of [server.py]
    (the read-modify-write done by [submit_code], the ranking done by
    [get_leaderboard]), with the properties of the design document stated
    and proved (or refuted) over it.

    Modelling conventions.
    - A Python [str] is a [string]; a character is an 8-bit code point
      (the range U+0000..U+00FF of Python's text type).
    - Python integers are [Z]; list indices and lengths are [nat].
    - What the operating system answers (child processes, temporary files,
      the clock, fresh UUIDs) is an explicit argument of the function that
      asks for it.
    - A raised exception is the [inl] of a sum; [inr] is a normal return.
      An exception object is the name of its class and its text. *)

From Stdlib Require Import ZArith Lia Ascii String.
From stdpp Require Import base list strings pretty sorting gmap.

Local Open Scope string_scope.
Local Open Scope list_scope.
Local Open Scope Z_scope.

(** ** Python string primitives used by the grader *)

Module PyStr.

(** [str.isspace] on one character, for code points below 256:
    TAB LF VT FF CR, the four separators FS GS RS US, SPACE, NEL and
    NO-BREAK SPACE. *)
Definition isspace (c : ascii) : bool :=
  let n := N_of_ascii c in
  ((9 <=? n) && (n <=? 13) || (28 <=? n) && (n <=? 32)
   || (n =? 133) || (n =? 160))%N.

(** [s.lstrip()] *)
Fixpoint lstrip (s : string) : string :=
  match s with
  | EmptyString => EmptyString
  | String c t => if isspace c then lstrip t else s
  end.

(** [s.rstrip()] *)
Fixpoint rstrip (s : string) : string :=
  match s with
  | EmptyString => EmptyString
  | String c t =>
      match rstrip t with
      | EmptyString => if isspace c then EmptyString else String c EmptyString
      | r => String c r
      end
  end.

(** [s.strip()]: whitespace removed at both ends. *)
Definition strip (s : string) : string := rstrip (lstrip s).

(** [s.replace(old, new)] for a one-character [old]. *)
Fixpoint replace (s : string) (old : ascii) (new : string) : string :=
  match s with
  | EmptyString => EmptyString
  | String c t =>
      if Ascii.eqb c old then new +:+ replace t old new
      else String c (replace t old new)
  end.

(** [str(n)] / the [{n}] of an f-string, for an integer. *)
Definition str_of_int (n : Z) : string := pretty n.

(** [b.startswith("/")] and [path.endswith("/")]. *)
Definition startswith_sep (b : string) : bool :=
  match b with
  | String c _ => Ascii.eqb c "/"
  | EmptyString => false
  end.

Fixpoint endswith_sep (path : string) : bool :=
  match path with
  | EmptyString => false
  | String c EmptyString => Ascii.eqb c "/"
  | String _ rest => endswith_sep rest
  end.

(** [os.path.join(path, b)] of [posixpath]: a component that starts with
    the separator replaces what stands before it; otherwise it is appended,
    after a separator unless [path] is empty or ends with one. With more
    components the same step is repeated from the left. *)
Definition os_path_join (path b : string) : string :=
  if startswith_sep b then b
  else match path with
       | EmptyString => b
       | _ => if endswith_sep path then path +:+ b else path +:+ "/" +:+ b
       end.

End PyStr.


(** ** grader.py *)

Module Grader.
Import PyStr.

(** One test case of [test_cases/<problem_id>.json]. *)
Record TestCase := { input : string; expected_output : string }.

(** The parsed test file; a missing key reads as the empty list
    ([test_data.get(..., [])]). *)
Record Problem := {
  public_tests : list TestCase;
  hidden_tests : list TestCase
}.

(** An exception object: the name of its class, [type(e).__name__], and
    its text, [str(e)]. *)
Record Raised := { class_name : string; message : string }.

Definition str_of_raised (e : Raised) : string := message e.

(** [FileNotFoundError(msg)], the builtin class: the one that [open] raises
    for a missing file, that the first lines raise again, and that the
    system raises wherever else a file or directory is missing. *)
Definition FileNotFoundError (msg : string) : Raised :=
  {| class_name := "FileNotFoundError"; message := msg |}.

(** [OSError(errno, strerror)] of another kind; [msg] is its text. *)
Definition OSError (msg : string) : Raised :=
  {| class_name := "OSError"; message := msg |}.

(** What one pass through the loop body observes from the system. *)
Inductive Execution :=
| TempFileError (e : Raised)
    (* NamedTemporaryFile / write / flush raised [e]: the [with] block
       stands outside the inner [try], no handler catches it *)
| Completed (returncode : Z) (stdout stderr : string)
    (* subprocess.run returned *)
| TimeoutExpired
    (* subprocess.run raised subprocess.TimeoutExpired *)
| RunError (e : string).
    (* subprocess.run raised another Exception, str(e) = e *)

(** The system as [grade_submission] and its callers see it.
    [test_cases] is what [open(f"test_cases/{problem_id}.json")] followed
    by [json.load] gives for each [problem_id]; a [problem_id] without an
    entry is one for which [open] raises [FileNotFoundError]. A file that
    opens is taken to hold a JSON object whose tests have their two keys.
    [path_exists] is [os.path.exists], asked with a path. The child process
    is asked for by the position of the call and the text of the temporary
    file. *)
Record Env := {
  test_cases : gmap string Problem;
  path_exists : string → bool;
  subprocess_run : nat → string → Execution;
  uuid4 : string;
  utcnow : string
}.

Definition LF : string := String (ascii_of_nat 10) EmptyString.
Definition DQ : string := String (ascii_of_nat 34) EmptyString.

(** Text written to the temporary file for one test case. *)
Definition script (code input : string) : string :=
  code +:+ LF +:+
  LF +:+ "if __name__ == " +:+ DQ +:+ "__main__" +:+ DQ +:+ ":" +:+
  LF +:+ "    import sys" +:+
  LF +:+ "    from io import StringIO" +:+
  LF +:+
  LF +:+ "    input_data = " +:+ DQ +:+ DQ +:+ DQ +:+ input
                             +:+ DQ +:+ DQ +:+ DQ +:+
  LF +:+ "    sys.stdin = StringIO(input_data)" +:+
  LF +:+
  LF +:+ "    solve()" +:+ LF.

(** The comparison of lines 50-57: both sides stripped, then every
    space deleted, then compared. *)
Definition compare (actual expected : string) : bool :=
  let user_output := strip actual in
  let expected_output := strip expected in
  let user_output_normalized := replace user_output " " "" in
  let expected_output_normalized := replace expected_output " " "" in
  String.eqb user_output_normalized expected_output_normalized.

(** The two accumulators of the loop. *)
Record Tally := { passed_count : Z; error_details : list string }.

Definition append (msg : string) (a : Tally) : Tally :=
  {| passed_count := passed_count a;
     error_details := error_details a ++ [msg] |}.

Definition test_label (i : nat) : string :=
  "Test " +:+ str_of_int (Z.of_nat i + 1).

(** The body of the [for] loop for test [i]. *)
Definition loop_body (i : nat) (case : TestCase) (ex : Execution) (a : Tally)
  : Raised + Tally :=
  match ex with
  | TempFileError e => inl e
  | Completed returncode stdout stderr =>
      if negb (returncode =? 0)%Z then
        inr (append (test_label i +:+ ": Runtime error - " +:+ strip stderr) a)
      else if compare stdout (expected_output case) then
        inr {| passed_count := passed_count a + 1;
               error_details := error_details a |}
      else
        inr (append (test_label i +:+ ": Expected '"
                       +:+ strip (expected_output case)
                       +:+ "', got '" +:+ strip stdout +:+ "'") a)
  | TimeoutExpired =>
      inr (append (test_label i +:+ ": Timeout (exceeded 5 seconds)") a)
  | RunError e =>
      inr (append (test_label i +:+ ": Execution error - " +:+ e) a)
  end.

(** What the system answers for test [i]: the file is written, then run. *)
Definition exec (env : Env) (code : string) (i : nat) (case : TestCase)
  : Execution :=
  subprocess_run env i (script code (input case)).

(** [for i, case in enumerate(all_tests)], started at index [i]. *)
Fixpoint loop (env : Env) (code : string) (i : nat) (tests : list TestCase)
    (a : Tally) : Raised + Tally :=
  match tests with
  | [] => inr a
  | case :: rest =>
      match loop_body i case (exec env code i case) a with
      | inl e => inl e
      | inr a' => loop env code (S i) rest a'
      end
  end.

Definition all_tests (p : Problem) : list TestCase :=
  public_tests p ++ hidden_tests p.

(** Lines 77-79. *)
Definition replay_result_of (passed_count total_cases : Z) : string :=
  if (passed_count =? total_cases)%Z then "passed"
  else if (0 <? passed_count)%Z then "partially" else "failed".

Module Entry.
(** A submission dictionary, as built by the grader and by the server. *)
Record t := {
  submission_id : string;
  user_id : string;
  problem_id : string;
  score : Z;
  replay_result : string;
  timestamp : string;
  error_details : list string
}.
End Entry.

Module Result.
(** The dictionary returned by [grade_submission]. *)
Record t := {
  score : Z;
  total : Z;
  replay_result : string;
  submission_entry : Entry.t;
  error_details : list string
}.
End Result.

(** The state of the loop when it ends, before anything is truncated. *)
Definition run_all (env : Env) (code : string) (p : Problem) : Raised + Tally :=
  loop env code 0 (all_tests p) {| passed_count := 0; error_details := [] |}.

Definition grade_submission (env : Env) (code problem_id user_id : string)
  : Raised + Result.t :=
  match test_cases env !! problem_id with
  | None =>
      inl (FileNotFoundError
             ("Test cases for '" +:+ problem_id +:+ "' not found."))
  | Some test_data =>
      let total_cases := Z.of_nat (length (all_tests test_data)) in
      match run_all env code test_data with
      | inl e => inl e
      | inr a =>
          let replay_result := replay_result_of (passed_count a) total_cases in
          let submission_entry :=
            {| Entry.submission_id := uuid4 env;
               Entry.user_id := user_id;
               Entry.problem_id := problem_id;
               Entry.score := passed_count a;
               Entry.replay_result := replay_result;
               Entry.timestamp := utcnow env;
               Entry.error_details := take 3 (error_details a) |} in
          inr {| Result.score := passed_count a;
                 Result.total := total_cases;
                 Result.replay_result := replay_result;
                 Result.submission_entry := submission_entry;
                 Result.error_details := take 5 (error_details a) |}
      end
  end.

End Grader.

(** ** server.py: the leaderboard *)

Module Server.
Import PyStr Grader.

Module Submission.
(** The request body of [POST /submit]. *)
Record t := { user_id : string; problem_id : string; code : string }.
End Submission.

Module Grade.
(** The ["grade"] part of the response. *)
Record t := {
  score : Z;
  total : Z;
  replay_result : string;
  error_details : list string
}.
End Grade.

Inductive Response :=
| HTTPException (status_code : Z) (detail : string)
| Returned (grade : Grade.t) (leaderboard_entry : Entry.t).

(** The test of the search loop of lines 267-270. *)
Definition same_pair (user problem : string) (entry : Entry.t) : Prop :=
  Entry.user_id entry = user ∧ Entry.problem_id entry = problem.

#[global] Instance same_pair_dec user problem entry :
  Decision (same_pair user problem entry).
Proof. unfold same_pair. apply _. Defined.

(** Lines 262-277: [existing_index] is the first index whose entry has
    the user and problem of the new entry; the entry there is overwritten
    when the new score is greater, the new entry is appended when there is
    no such index. *)
Definition update_leaderboard (submission_entry : Entry.t)
    (submissions : list Entry.t) : list Entry.t :=
  match list_find (same_pair (Entry.user_id submission_entry)
                             (Entry.problem_id submission_entry))
                  submissions with
  | Some (existing_index, existing) =>
      if (Entry.score existing <? Entry.score submission_entry)%Z
      then <[existing_index := submission_entry]> submissions
      else submissions
  | None => submissions ++ [submission_entry]
  end.

(** [POST /submit]: the response and the new value of the global
    [submissions]. [now] is [datetime.now().isoformat()]. The existence
    check is made on the path built by [os.path.join]; the grader then
    opens the path of its own f-string. *)
Definition submit_code (env : Env) (now : string)
    (submissions : list Entry.t) (submission : Submission.t)
  : Response * list Entry.t :=
  let test_case_path :=
    os_path_join "test_cases" (Submission.problem_id submission +:+ ".json") in
  if negb (path_exists env test_case_path) then
    (HTTPException 404 "Problem test cases not found", submissions)
  else
      match grade_submission env (Submission.code submission)
              (Submission.problem_id submission)
              (Submission.user_id submission) with
      | inl e =>
          (HTTPException 500 ("Grading failed: " +:+ str_of_raised e),
           submissions)
      | inr result =>
          let submission_entry :=
            {| Entry.submission_id :=
                 Entry.submission_id (Result.submission_entry result);
               Entry.user_id := Submission.user_id submission;
               Entry.problem_id := Submission.problem_id submission;
               Entry.score := Result.score result;
               Entry.replay_result :=
                 str_of_int (Result.score result) +:+ "/" +:+
                 str_of_int (Result.total result) +:+ " tests passed";
               Entry.timestamp := now;
               Entry.error_details := Result.error_details result |} in
          (Returned
             {| Grade.score := Result.score result;
                Grade.total := Result.total result;
                Grade.replay_result := Result.replay_result result;
                Grade.error_details := take 3 (Result.error_details result) |}
             submission_entry,
           update_leaderboard submission_entry submissions)
      end.

(** *** Ranking *)

Module Row.
(** One line of the leaderboard. *)
Record t := {
  user_id : string;
  problem_id : string;
  score : Z;
  replay_result : string;
  timestamp : string
}.
End Row.

(** The sort key [(-x["score"], x["timestamp"])]. *)
Definition SortKey : Type := Z * string.

(** [a < b] on such tuples: the first components decide unless they are
    equal. *)
Definition tuple_lt (a b : SortKey) : bool :=
  if (a.1 =? b.1)%Z then String.ltb a.2 b.2 else (a.1 <? b.1)%Z.

Section sorted.
Context {A : Type} (key : A → SortKey).

(** [x] stood before every element of [l]: it goes before the first
    element that is not smaller than it. *)
Fixpoint insort (x : A) (l : list A) : list A :=
  match l with
  | [] => [x]
  | y :: l' =>
      if tuple_lt (key y) (key x) then y :: insort x l' else x :: l
  end.

(** [sorted(l, key=key)] and [l.sort(key=key)]: the stable sort. *)
Definition sorted (l : list A) : list A := foldr insort [] l.
End sorted.

Definition entry_key (x : Entry.t) : SortKey :=
  (- Entry.score x, Entry.timestamp x).
Definition row_key (x : Row.t) : SortKey :=
  (- Row.score x, Row.timestamp x).

(** [problems[pid].append(entry)] on a dictionary that keeps its keys in
    the order of their first insertion. *)
Fixpoint dict_append (pid : string) (entry : Entry.t)
    (problems : list (string * list Entry.t)) : list (string * list Entry.t) :=
  match problems with
  | [] => [(pid, [entry])]
  | (k, v) :: rest =>
      if decide (k = pid) then (k, (v ++ [entry])%list) :: rest
      else (k, v) :: dict_append pid entry rest
  end.

Definition group_by_problem (submissions : list Entry.t)
  : list (string * list Entry.t) :=
  foldl (λ problems entry, dict_append (Entry.problem_id entry) entry problems)
        [] submissions.

(** The inner loop of lines 460-471. *)
Fixpoint best_per_user (problem_id : string) (sorted_entries : list Entry.t)
    (seen_users : gset string) : list Row.t :=
  match sorted_entries with
  | [] => []
  | entry :: rest =>
      let uid := Entry.user_id entry in
      if decide (uid ∈ seen_users) then best_per_user problem_id rest seen_users
      else {| Row.user_id := uid;
              Row.problem_id := problem_id;
              Row.score := Entry.score entry;
              Row.replay_result := Entry.replay_result entry;
              Row.timestamp := Entry.timestamp entry |}
           :: best_per_user problem_id rest ({[uid]} ∪ seen_users)
  end.

(** The list [leaderboard] before the final sort. *)
Definition unsorted_leaderboard (submissions : list Entry.t) : list Row.t :=
  mjoin ((λ kv, best_per_user kv.1 (sorted entry_key kv.2) ∅)
           <$> group_by_problem submissions).

(** [GET /leaderboard]. *)
Definition get_leaderboard (submissions : list Entry.t) : list Row.t :=
  match submissions with
  | [] => []
  | _ => sorted row_key (unsorted_leaderboard submissions)
  end.

End Server.

(** ** Vocabulary for the statements about the loop *)

Module LoopSpec.
Import PyStr Grader.

(** What one pass through the body does to the two accumulators: one more
    passed test, or one more message, labelled with the test. *)
Inductive step_kind (i : nat) (a a' : Tally) : Prop :=
| step_pass :
    passed_count a' = passed_count a + 1 →
    error_details a' = error_details a → step_kind i a a'
| step_fail detail :
    passed_count a' = passed_count a →
    error_details a' = error_details a ++ [test_label i +:+ ": " +:+ detail] →
    step_kind i a a'.

(** The messages [msgs] are those of the tests [idx], in this order. *)
Definition labelled (idx : list nat) (msgs : list string) : Prop :=
  Forall2 (λ i msg, ∃ detail, msg = test_label i +:+ ": " +:+ detail) idx msgs.

(** No temporary file of this grading fails. *)
Definition files_ok (env : Env) (code : string) (p : Problem) : Prop :=
  ∀ i case e, all_tests p !! i = Some case →
              exec env code i case ≠ TempFileError e.

End LoopSpec.

(** ** Vocabulary for the statements about the test files *)

Module PathSpec.
Import Grader.



End PathSpec.

(** ** The comparator as the design document words it *)

Module CompareSpec.
Import PyStr.

(** Leading whitespace dropped. *)
Fixpoint drop_leading (l : list ascii) : list ascii :=
  match l with
  | [] => []
  | c :: l' => if isspace c then drop_leading l' else l
  end.

(** Leading and trailing whitespace trimmed. *)
Definition trim (l : list ascii) : list ascii :=
  reverse (drop_leading (reverse (drop_leading l))).

(** Every space character removed, and nothing else. *)
Definition remove_spaces (l : list ascii) : list ascii :=
  filter (λ c, c ≠ " "%char) l.

Definition normalize (s : string) : list ascii :=
  remove_spaces (trim (list_ascii_of_string s)).

(** Equality of the normal forms. *)
Definition compare (actual expected : string) : bool :=
  bool_decide (normalize actual = normalize expected).

End CompareSpec.

(** ** Vocabulary for the statements about the leaderboard *)

Module LeaderboardSpec.
Import Grader Server.

Definition pair_of (x : Entry.t) : string * string :=
  (Entry.user_id x, Entry.problem_id x).

(** At most one entry for each user and problem. *)
Definition unique_pairs (submissions : list Entry.t) : Prop :=
  NoDup (pair_of <$> submissions).

(** The entry kept for a user and a problem, if any. *)
Definition retained (user problem : string) (submissions : list Entry.t)
  : option Entry.t :=
  snd <$> list_find (same_pair user problem) submissions.

(** The order of the final sort on sort keys: not greater, as tuples. *)
Definition key_le (a b : SortKey) : Prop := tuple_lt b a = false.

(** Higher score first; on equal scores, the timestamp that is not later
    (timestamps are ISO texts, compared as texts). *)
Definition ranks_before (r1 r2 : Row.t) : Prop :=
  Row.score r2 < Row.score r1
  ∨ Row.score r1 = Row.score r2
    ∧ (Row.timestamp r1 ≤ Row.timestamp r2)%string.

End LeaderboardSpec.

(** ** Concrete systems used in the examples *)

Module Examples.
Import PyStr Grader Server.

Definition tc (i o : string) : TestCase :=
  {| input := i; expected_output := o |}.

Definition no_tests : Problem := {| public_tests := []; hidden_tests := [] |}.

Definition add : Problem :=
  {| public_tests := [tc "1 2" "3"];
     hidden_tests := [tc "2 2" "4"; tc "5 5" "10"] |}.

Definition six : Problem :=
  {| public_tests := [tc "1" "1"; tc "2" "2"];
     hidden_tests := [tc "3" "3"; tc "4" "4"; tc "5" "5"; tc "6" "6"] |}.

Definition store : gmap string Problem :=
  <["empty" := no_tests]> (<["add" := add]> (<["six" := six]> ∅)).

(** The paths of the files of [store], as the grader opens them. *)
Definition store_paths : list string :=
  ["test_cases/empty.json"; "test_cases/add.json"; "test_cases/six.json"].

Definition system (run : nat → string → Execution) : Env :=
  {| test_cases := store;
     path_exists := λ path, bool_decide (path ∈ store_paths);
     subprocess_run := run;
     uuid4 := "6f1c2a9e-58b7-4d3a-9c41-0b7e5d2f8a10";
     utcnow := "2024-05-01 12:00:00" |}.

(** Every child prints ["3"] and exits with 0. *)
Definition prints_3 : Env := system (λ _ _, Completed 0 "3" "").

(** Every child exits with 1 after writing a line to its standard error. *)
Definition crashes : Env :=
  system (λ _ _, Completed 1 "" ("boom" +:+ LF)).

(** Every child runs out of time. *)
Definition hangs : Env := system (λ _ _, TimeoutExpired).

(** No child can be started. *)
Definition no_python : Env :=
  system (λ _ _, RunError "[Errno 2] No such file or directory: 'python'").

(** The second temporary file cannot be written. *)
Definition disk_full : Env :=
  system (λ i _, match i with
                 | 1%nat =>
                     TempFileError
                       (OSError "[Errno 28] No space left on device")
                 | _ => Completed 0 "3" ""
                 end).



Definition request (user problem : string) : Submission.t :=
  {| Submission.user_id := user;
     Submission.problem_id := problem;
     Submission.code := "def solve(): print(3)" |}.

(** An entry of the leaderboard file. *)
Definition entry (id user problem : string) (score : Z) (timestamp : string)
  : Entry.t :=
  {| Entry.submission_id := id;
     Entry.user_id := user;
     Entry.problem_id := problem;
     Entry.score := score;
     Entry.replay_result := str_of_int score +:+ "/5 tests passed";
     Entry.timestamp := timestamp;
     Entry.error_details := [] |}.

(** The instants 1, 5 and 10 of the ranking example, as seconds of one
    minute in the text form written by [isoformat]. *)
Definition t1 : string := "2024-05-01T12:00:01".
Definition t5 : string := "2024-05-01T12:00:05".
Definition t10 : string := "2024-05-01T12:00:10".

Definition ranking_example : list Entry.t :=
  [entry "s1" "u1" "p1" 5 t10; entry "s2" "u2" "p1" 5 t5;
   entry "s3" "u3" "p1" 3 t1].

(** Two entries with one score and one timestamp. *)
Definition tie_b : Entry.t := entry "b" "u1" "p1" 5 t5.
Definition tie_a : Entry.t := entry "a" "u2" "p1" 5 t5.

End Examples.

(** ** Views of the loop and of the store used by further statements *)

Module Views.
Import PyStr Grader Server LeaderboardSpec.

(** The message the body of the loop appends for test [i], if it appends
    one: read off the body run on empty accumulators. *)
Definition failure_message (i : nat) (case : TestCase) (ex : Execution)
  : option string :=
  match loop_body i case ex {| passed_count := 0; error_details := [] |} with
  | inr a => head (error_details a)
  | inl _ => None
  end.

(** The messages of the tests from index [i] on, one slot for each test. *)
Definition messages (env : Env) (code : string) (i : nat)
    (tests : list TestCase) : list (option string) :=
  imap (λ j case, failure_message (i + j) case (exec env code (i + j) case))
       tests.

(** The dictionary of lines 464-470 for an entry of the group of
    [problem_id]. *)
Definition row_of (problem_id : string) (entry : Entry.t) : Row.t :=
  {| Row.user_id := Entry.user_id entry;
     Row.problem_id := problem_id;
     Row.score := Entry.score entry;
     Row.replay_result := Entry.replay_result entry;
     Row.timestamp := Entry.timestamp entry |}.

(** The entries recorded one after the other, oldest first. *)
Definition record_all (entries submissions : list Entry.t) : list Entry.t :=
  foldl (λ subs entry, update_leaderboard entry subs) submissions entries.

(** One step of keeping the best entry: a strictly greater score wins. *)
Definition keep_best (best : option Entry.t) (entry : Entry.t)
  : option Entry.t :=
  match best with
  | None => Some entry
  | Some b => if Entry.score b <? Entry.score entry then Some entry else Some b
  end.

(** The first entry of a list with the greatest score of the list. *)
Definition best_of (entries : list Entry.t) : option Entry.t :=
  foldl keep_best None entries.

(** The entries of one problem. *)
Definition of_problem (problem_id : string) (entry : Entry.t) : Prop :=
  Entry.problem_id entry = problem_id.

#[global] Instance of_problem_dec problem_id entry :
  Decision (of_problem problem_id entry).
Proof. unfold of_problem. apply _. Defined.

(** The problems of a list of entries, each once, in the order of their
    first entry. *)
Definition problems_seen (submissions : list Entry.t) : list string :=
  foldl (λ ks entry,
           if decide (Entry.problem_id entry ∈ ks) then ks
           else ks ++ [Entry.problem_id entry])
        [] submissions.

(** The rows that the group of problem [k] adds to the leaderboard. *)
Definition group_rows (submissions : list Entry.t) (k : string) : list Row.t :=
  best_per_user k (sorted entry_key (filter (of_problem k) submissions)) ∅.

End Views.


(** ** server.py: the other endpoints *)

Module Endpoints.
Import PyStr Grader Server.

(** An answer of an endpoint: an [HTTPException], or the returned value. *)
Inductive Answer (A : Type) :=
| Raise (status_code : Z) (detail : string)
| Return (value : A).
Arguments Raise {A} _ _.
Arguments Return {A} _.

(** *** [GET /problem/{problem_id}] *)

Module Details.
Record t := {
  problem_id : string;
  public_tests : list TestCase;
  hidden_tests_count : Z;
  total_tests : Z
}.
End Details.


(** *** [POST /run] *)

Module RunRequest.
(** The two keys read from the request; [None] when the key is absent. *)
Record t := { problem_id : option string; code : option string }.
End RunRequest.







End Endpoints.

(** ** UTF-8, as [str.encode('utf-8')] and [bytes.decode('utf-8')] do it *)

Module Utf8.

(** Code points and bytes are numbers; a text is a list of code points. *)
Definition is_surrogate (c : N) : bool := ((0xD800 <=? c) && (c <? 0xE000))%N.

(** The bytes of one code point; [None] where [encode] raises: a
    surrogate, or a number above U+10FFFF. *)
Definition encode_char (c : N) : option (list N) :=
  (if c <? 0x80 then Some [c]
   else if c <? 0x800 then Some [0xC0 + c / 64; 0x80 + c mod 64]
   else if c <? 0x10000 then
     if is_surrogate c then None
     else Some [0xE0 + c / 4096; 0x80 + (c / 64) mod 64; 0x80 + c mod 64]
   else if c <? 0x110000 then
     Some [0xF0 + c / 262144; 0x80 + (c / 4096) mod 64;
           0x80 + (c / 64) mod 64; 0x80 + c mod 64]
   else None)%N.

Fixpoint encode (s : list N) : option (list N) :=
  match s with
  | [] => Some []
  | c :: s' =>
      match encode_char c, encode s' with
      | Some b, Some bs => Some (b ++ bs)
      | _, _ => None
      end
  end.

(** A continuation byte. *)
Definition cont (b : N) : bool := ((0x80 <=? b) && (b <=? 0xBF))%N.

(** The strict decoder; [None] where [decode] raises: a stray or missing
    continuation byte, an overlong form, a surrogate, a value above
    U+10FFFF, a byte that starts nothing. *)
Fixpoint decode (bs : list N) : option (list N) :=
  match bs with
  | [] => Some []
  | b0 :: r0 =>
      if (b0 <? 0x80)%N then cons b0 <$> decode r0
      else if ((0xC2 <=? b0) && (b0 <=? 0xDF))%N then
        match r0 with
        | b1 :: r1 =>
            if cont b1
            then cons ((b0 - 0xC0) * 64 + (b1 - 0x80))%N <$> decode r1
            else None
        | _ => None
        end
      else if ((0xE0 <=? b0) && (b0 <=? 0xEF))%N then
        match r0 with
        | b1 :: b2 :: r2 =>
            let c := ((b0 - 0xE0) * 4096 + (b1 - 0x80) * 64 + (b2 - 0x80))%N in
            if cont b1 && cont b2 && (0x800 <=? c)%N && negb (is_surrogate c)
            then cons c <$> decode r2
            else None
        | _ => None
        end
      else if ((0xF0 <=? b0) && (b0 <=? 0xF4))%N then
        match r0 with
        | b1 :: b2 :: b3 :: r3 =>
            let c := ((b0 - 0xF0) * 262144 + (b1 - 0x80) * 4096
                      + (b2 - 0x80) * 64 + (b3 - 0x80))%N in
            if cont b1 && cont b2 && cont b3
               && (0x10000 <=? c)%N && (c <? 0x110000)%N
            then cons c <$> decode r3
            else None
        | _ => None
        end
      else None
  end.

End Utf8.

(** ** More of Python's text operations *)

Module PyText.

(** [needle in text]. *)
Fixpoint contains (needle text : string) : bool :=
  String.prefix needle text
  || match text with
     | EmptyString => false
     | String _ rest => contains needle rest
     end.

(** [s.endswith(suffix)]. *)
Fixpoint endswith (s suffix : string) : bool :=
  String.eqb s suffix
  || match s with
     | EmptyString => false
     | String _ rest => endswith rest suffix
     end.

(** [s.replace(old, new)] for a non-empty [old]: the occurrences of [old]
    are taken from the left and do not overlap; [skip] characters of an
    occurrence just replaced are still to be passed over. *)
Fixpoint replace_from (skip : nat) (s old new : string) : string :=
  match s with
  | EmptyString => EmptyString
  | String c rest =>
      match skip with
      | S k => replace_from k rest old new
      | O =>
          if String.prefix old s
          then new +:+ replace_from (String.length old - 1) rest old new
          else String c (replace_from 0 rest old new)
      end
  end.

(** With an empty [old], [new] goes before every character and at the
    end. *)
Fixpoint interleave (s new : string) : string :=
  match s with
  | EmptyString => new
  | String c rest => new +:+ String c (interleave rest new)
  end.

Definition replace (s old new : string) : string :=
  match old with
  | EmptyString => interleave s new
  | _ => replace_from 0 s old new
  end.

End PyText.

(** ** database.py *)

Module Database.
Import PyStr PyText.

(** The loop of lines 58-63, with [truncated_bytes = password_bytes[:n]]:
    each failed [decode] drops the last byte; the loop ends without a new
    password when no byte is left. *)
Fixpoint shorten (n : nat) (password_bytes : list N) (password : list N)
  : list N :=
  match n with
  | O => password
  | S n' =>
      match Utf8.decode (take n password_bytes) with
      | Some decoded => decoded
      | None => shorten n' password_bytes password
      end
  end.

(** Lines 53-63 (and 113-120): the password after the [if], given its
    bytes. *)
Definition truncated (password_bytes password : list N) : list N :=
  if (72 <? length password_bytes)%nat
  then shorten 72 password_bytes password
  else password.

(** Lines 52-63 (and 112-120): the password that is hashed or verified;
    [None] where [password.encode] raises. *)
Definition truncate_password (password : list N) : option (list N) :=
  match Utf8.encode password with
  | None => None
  | Some password_bytes => Some (truncated password_bytes password)
  end.

(** What the database and the hashing library answer. *)
Inductive InsertOutcome :=
| Inserted (id : Z)
| IntegrityError (msg : string)
| InsertError (msg : string).      (* any other exception; [msg] is its text *)

Module User.
(** A row of the table [users]. *)
Record t := {
  id : Z;
  username : string;
  email : string;
  hashed_password : string
}.
End User.

Record System := {
  connect : option string;
    (* [Some e]: [psycopg2.connect] raises, [e] is the text *)
  cursor : option string;
    (* [Some e]: [conn.cursor()] raises *)
  rollback : option string;
    (* [Some e]: [conn.rollback()] raises *)
  cur_close : option string;
    (* [Some e]: [cur.close()] raises *)
  conn_close : option string;
    (* [Some e]: [conn.close()] raises *)
  encode_error : list N → string;
    (* the text of the [UnicodeEncodeError] of a password *)
  hash : list N → string + string;
    (* [pwd_context.hash]: [inl e] when it raises *)
  verify : list N → string → string + bool;
    (* [pwd_context.verify]: [inl e] when it raises *)
  insert : string → string → string → InsertOutcome;
    (* the INSERT, [fetchone] and [commit] *)
  select : string → string + option User.t
    (* the SELECT and [fetchone]: [inl e] when one raises *)
}.

(** The dictionaries returned by [create_user] and [verify_user]. *)
Inductive Outcome :=
| Success (user_id : Z) (username : string) (email : option string)
| Failure (error : string).

(** The [finally] block, run with what the [try] statement left pending, a
    raised exception ([inl]) or a returned value ([inr]): an exception of
    [cur.close()] or of [conn.close()] takes its place, and after the
    former [conn.close()] is not reached. *)
Definition finally_close {A : Type} (sys : System) (pending : string + A)
  : string + A :=
  match cur_close sys with
  | Some e => inl e
  | None =>
      match conn_close sys with
      | Some e => inl e
      | None => pending
      end
  end.

(** An [except] block of [create_user]: [conn.rollback()] comes first, the
    [return] after it. *)
Definition rolled_back (sys : System) (result : Outcome) : string + Outcome :=
  match rollback sys with
  | Some e => inl e
  | None => inr result
  end.

(** The [try] statement of [create_user] with its two handlers, before the
    [finally] block. *)
Definition create_user_try (sys : System) (username email : string)
    (password_bytes password : list N) : string + Outcome :=
  match hash sys (truncated password_bytes password) with
  | inl e => rolled_back sys (Failure ("Error: " +:+ e))
  | inr hashed_password =>
      match insert sys username email hashed_password with
      | Inserted user_id => inr (Success user_id username None)
      | IntegrityError error_msg =>
          rolled_back sys
            (if contains "username" error_msg
             then Failure "Username already exists"
             else if contains "email" error_msg
             then Failure "Email already exists"
             else Failure "Username or email already exists")
      | InsertError e => rolled_back sys (Failure ("Error: " +:+ e))
      end
  end.

(** [inl e]: the call raises, with text [e]. *)
Definition create_user (sys : System) (username email : string)
    (password : list N) : string + Outcome :=
  match Utf8.encode password with
  | None => inl (encode_error sys password)     (* the second [print] *)
  | Some password_bytes =>
      match connect sys with
      | Some e => inl e
      | None =>
          match cursor sys with
          | Some e => inl e
          | None =>
              finally_close sys
                (create_user_try sys username email password_bytes password)
          end
      end
  end.

(** The [try] statement of [verify_user] with its handler, which returns. *)
Definition verify_user_try (sys : System) (username : string)
    (password : list N) : Outcome :=
  match select sys username with
  | inl e => Failure ("Database error: " +:+ e)
  | inr None => Failure "Invalid credentials"
  | inr (Some user) =>
      match truncate_password password with
      | None => Failure ("Database error: " +:+ encode_error sys password)
      | Some password' =>
          match verify sys password' (User.hashed_password user) with
          | inl e => Failure ("Database error: " +:+ e)
          | inr true =>
              Success (User.id user) (User.username user)
                      (Some (User.email user))
          | inr false => Failure "Invalid credentials"
          end
      end
  end.

Definition verify_user (sys : System) (username : string)
    (password : list N) : string + Outcome :=
  match connect sys with
  | Some e => inl e
  | None =>
      match cursor sys with
      | Some e => inl e
      | None => finally_close sys (inr (verify_user_try sys username password))
      end
  end.

End Database.

(** ** server.py: signup and login *)

Module Auth.
Import Endpoints Database.

Module SignupRequest.
Record t := { username : string; email : string; password : list N }.
End SignupRequest.

Module LoginRequest.
Record t := { username : string; password : list N }.
End LoginRequest.

(** [POST /signup]. The 400 is raised inside the [try], whose handler
    catches every [Exception] and raises the 500 with its text. *)
Definition signup (str_http : Z → string → string)
    (DATABASE_AVAILABLE : bool) (sys : System) (request : SignupRequest.t)
  : Answer Outcome :=
  if negb DATABASE_AVAILABLE then
    Raise 503 "Database service unavailable. Please install: pip install psycopg2-binary passlib[bcrypt]"
  else
    match create_user sys (SignupRequest.username request)
            (SignupRequest.email request)
            (SignupRequest.password request) with
    | inl e => Raise 500 e
    | inr (Failure error) => Raise 500 (str_http 400 error)
    | inr result => Return result
    end.

(** [POST /login]. Here an [HTTPException] is raised again as it is. *)
Definition login (DATABASE_AVAILABLE : bool) (sys : System)
    (request : LoginRequest.t) : Answer Outcome :=
  if negb DATABASE_AVAILABLE then Raise 503 "Database service unavailable"
  else
    match verify_user sys (LoginRequest.username request)
            (LoginRequest.password request) with
    | inl e => Raise 500 e
    | inr (Failure error) => Raise 401 error
    | inr result => Return result
    end.

End Auth.

(** ** api/api_server.py *)

Module ApiServer.
Import PyStr Grader Server.

#[global] Instance entry_eq_dec : EqDecision Entry.t.
Proof. solve_decision. Defined.

(** Lines 63-73: the first entry of the user and problem is searched for;
    when the new score is greater, every entry equal to it is filtered out
    and the new entry is appended. *)
Definition update_leaderboard (submission_entry : Entry.t)
    (submissions : list Entry.t) : list Entry.t :=
  match list_find (same_pair (Entry.user_id submission_entry)
                             (Entry.problem_id submission_entry))
                  submissions with
  | Some (_, existing) =>
      if (Entry.score existing <? Entry.score submission_entry)%Z
      then filter (λ s, s ≠ existing) submissions ++ [submission_entry]
      else submissions
  | None => submissions ++ [submission_entry]
  end.

Inductive Response :=
| HTTPException (status_code : Z) (detail : string)
| Propagated (e : Raised)          (* an exception that no handler catches *)
| Returned (grade : Result.t) (leaderboard_entry : Entry.t).

(** The files of the package as [submit_code] sees them. *)
Record Files := {
  package_root : string;
    (* [os.path.dirname(os.path.dirname(__file__))] *)
  load_test_file : string → option Raised;
    (* [open(path, "r")] and [json.load]: [Some e] when one raises *)
  write_leaderboard : list Entry.t → option Raised
    (* [open(leaderboard_file, "w")] and [json.dump]: [Some e] when one
       raises *)
}.

(** [POST /submit]. The test file is looked for under the root of the
    package and loaded, with no handler; the grader opens its own path.
    The entry is the dictionary [result["submission_entry"]] itself,
    changed in place: the returned grade shows the changed entry. The
    leaderboard is written after the list is changed, with no handler. *)
Definition submit_code (files : Files) (env : Env) (now : string)
    (submissions : list Entry.t) (submission : Submission.t)
  : Response * list Entry.t :=
  let test_case_path :=
    os_path_join (os_path_join (package_root files) "test_cases")
      (Submission.problem_id submission +:+ ".json") in
  if negb (path_exists env test_case_path) then
    (HTTPException 404 "Problem test cases not found", submissions)
  else
    match load_test_file files test_case_path with
    | Some e => (Propagated e, submissions)
    | None =>
      match grade_submission env (Submission.code submission)
              (Submission.problem_id submission)
              (Submission.user_id submission) with
      | inl e => (Propagated e, submissions)
      | inr result =>
          let old := Result.submission_entry result in
          let submission_entry :=
            {| Entry.submission_id := Entry.submission_id old;
               Entry.user_id := Entry.user_id old;
               Entry.problem_id := Entry.problem_id old;
               Entry.score := Entry.score old;
               Entry.replay_result :=
                 str_of_int (Result.score result) +:+ "/" +:+
                 str_of_int (Result.total result) +:+ " tests passed";
               Entry.timestamp := now;
               Entry.error_details := Entry.error_details old |} in
          let submissions' := update_leaderboard submission_entry submissions in
          match write_leaderboard files submissions' with
          | Some e => (Propagated e, submissions')
          | None =>
              (Returned
                 {| Result.score := Result.score result;
                    Result.total := Result.total result;
                    Result.replay_result := Result.replay_result result;
                    Result.submission_entry := submission_entry;
                    Result.error_details := Result.error_details result |}
                 submission_entry,
               submissions')
          end
      end
    end.

Module Row.
(** One line of this leaderboard: no problem in it. *)
Record t := {
  user_id : string;
  score : Z;
  replay_result : string;
  timestamp : string
}.
End Row.

(** The loop of lines 92-102. *)
Fixpoint first_per_user (sorted_subs : list Entry.t) (seen : gset string)
  : list Row.t :=
  match sorted_subs with
  | [] => []
  | entry :: rest =>
      let uid := Entry.user_id entry in
      if decide (uid ∈ seen) then first_per_user rest seen
      else {| Row.user_id := uid;
              Row.score := Entry.score entry;
              Row.replay_result := Entry.replay_result entry;
              Row.timestamp := Entry.timestamp entry |}
           :: first_per_user rest ({[uid]} ∪ seen)
  end.

(** [GET /leaderboard]: all problems together, one row for each user. *)
Definition get_leaderboard (submissions : list Entry.t) : list Row.t :=
  match submissions with
  | [] => []
  | _ => first_per_user (sorted entry_key submissions) ∅
  end.

End ApiServer.

(** ** Vocabulary for the statements about [api_server.py] *)

Module ApiViews.
Import Grader Server LeaderboardSpec.

(** The dictionary of lines 96-101 for an entry. *)
Definition api_row (e : Entry.t) : ApiServer.Row.t :=
  {| ApiServer.Row.user_id := Entry.user_id e;
     ApiServer.Row.score := Entry.score e;
     ApiServer.Row.replay_result := Entry.replay_result e;
     ApiServer.Row.timestamp := Entry.timestamp e |}.

(** Higher score first; on equal scores, the timestamp that is not later. *)
Definition api_ranks_before (r1 r2 : ApiServer.Row.t) : Prop :=
  ApiServer.Row.score r2 < ApiServer.Row.score r1
  ∨ ApiServer.Row.score r1 = ApiServer.Row.score r2
    ∧ (ApiServer.Row.timestamp r1 ≤ ApiServer.Row.timestamp r2)%string.

End ApiViews.

(** ** server.py: the list of problems *)

Module Listing.
Import PyText.

(** What loading one file of the directory gives: an exception (the file
    cannot be read, is not JSON, or does not support [in]), or the answers
    to the two tests ["public_tests" in data] and ["hidden_tests" in data]. *)
Inductive Loaded :=
| LoadError
| Keys (public_tests hidden_tests : bool).

(** The directory [test_cases]: the names in the order of [os.listdir],
    each with what loading it gives. *)
Definition Directory : Type := list (string * Loaded).

(** The body of the loop for one file: the name it appends, if any. *)
Definition listed (file : string) (data : Loaded) : option string :=
  if endswith file ".json" then
    match data with
    | Keys public_tests hidden_tests =>
        if public_tests || hidden_tests
        then Some (replace file ".json" "")
        else None
    | LoadError => None
    end
  else None.

(** [GET /problems]; [None] when the directory does not exist. *)
Definition list_problems (test_cases_dir : option Directory) : list string :=
  match test_cases_dir with
  | None => []
  | Some files => omap (λ f, listed f.1 f.2) files
  end.

End Listing.
(** * Properties *)

(** ** The output comparison *)

Section comparator.
Import PyStr Grader.

Local Abbreviation chars := list_ascii_of_string.

Lemma chars_inj s1 s2 : chars s1 = chars s2 → s1 = s2.
Proof.
  intros H. rewrite <- (string_of_list_ascii_of_string s1),
    <- (string_of_list_ascii_of_string s2). by rewrite H.
Qed.

Lemma chars_lstrip s : chars (lstrip s) = CompareSpec.drop_leading (chars s).
Proof. induction s as [|c s IH]; simpl; [done|]. by destruct (isspace c). Qed.

Lemma drop_leading_snoc l c :
  CompareSpec.drop_leading (l ++ [c])%list =
  match CompareSpec.drop_leading l with
  | [] => if isspace c then [] else [c]
  | r => (r ++ [c])%list
  end.
Proof.
  induction l as [|x l IH]; simpl; [done|].
  destruct (isspace x); [done|]. reflexivity.
Qed.

Lemma chars_rstrip s :
  chars (rstrip s) = reverse (CompareSpec.drop_leading (reverse (chars s))).
Proof.
  induction s as [|c s IH]; simpl; [done|].
  rewrite reverse_cons, drop_leading_snoc.
  destruct (rstrip s) as [|c' r] eqn:Hr; simpl in IH.
  - destruct (CompareSpec.drop_leading (reverse (chars s))) as [|y d] eqn:Hd.
    + by destruct (isspace c).
    + rewrite reverse_cons in IH. by destruct (reverse d).
  - destruct (CompareSpec.drop_leading (reverse (chars s))) as [|y d] eqn:Hd.
    + done.
    + rewrite reverse_app. simpl. by rewrite <- IH.
Qed.

Lemma chars_strip s : chars (strip s) = CompareSpec.trim (chars s).
Proof. unfold strip, CompareSpec.trim. by rewrite chars_rstrip, chars_lstrip. Qed.

Lemma chars_replace_space s :
  chars (replace s " " "") = CompareSpec.remove_spaces (chars s).
Proof.
  unfold CompareSpec.remove_spaces.
  induction s as [|c s IH]; [done|].
  cbn [replace list_ascii_of_string].
  destruct (Ascii.eqb c " ") eqn:Hc.
  - apply Ascii.eqb_eq in Hc as ->.
    rewrite filter_cons_False by (intros H; by apply H). exact IH.
  - apply Ascii.eqb_neq in Hc.
    rewrite filter_cons_True by done. cbn. by rewrite IH.
Qed.

Lemma chars_normalized s :
  chars (replace (strip s) " " "") = CompareSpec.normalize s.
Proof. unfold CompareSpec.normalize. by rewrite chars_replace_space, chars_strip. Qed.

Lemma drop_leading_spec l :
  ∃ pre, l = pre ++ CompareSpec.drop_leading l
    ∧ Forall (λ c, isspace c = true) pre
    ∧ ∀ c, head (CompareSpec.drop_leading l) = Some c → isspace c = false.
Proof.
  induction l as [|x l (pre & Hl & Hpre & Hhd)]; simpl.
  - exists []. by split_and!.
  - destruct (isspace x) eqn:Hx.
    + exists (x :: pre). split_and!; [by rewrite Hl at 1|by constructor|done].
    + exists []. split_and!; [done|constructor|]. by intros c [= <-].
Qed.

(** What trimming leaves: the text between a run of whitespace at the
    front and one at the back, with no whitespace at either of its ends. *)
Lemma trim_spec l :
  ∃ pre suf, l = pre ++ CompareSpec.trim l ++ suf
    ∧ Forall (λ c, isspace c = true) pre
    ∧ Forall (λ c, isspace c = true) suf
    ∧ (∀ c, head (CompareSpec.trim l) = Some c → isspace c = false)
    ∧ (∀ c, last (CompareSpec.trim l) = Some c → isspace c = false).
Proof.
  unfold CompareSpec.trim.
  destruct (drop_leading_spec l) as (pre & Hl & Hpre & Hhd).
  set (m := CompareSpec.drop_leading l) in *.
  destruct (drop_leading_spec (reverse m)) as (suf & Hm & Hsuf & Hlast).
  set (d := CompareSpec.drop_leading (reverse m)) in *.
  assert (m = reverse d ++ reverse suf) as Hm'.
  { by rewrite <- reverse_app, <- Hm, reverse_involutive. }
  exists pre, (reverse suf). split_and!.
  - by rewrite <- Hm'.
  - done.
  - by apply Forall_reverse.
  - intros c Hc. apply Hhd. rewrite Hm'.
    destruct (reverse d); [done|]. exact Hc.
  - intros c. rewrite last_reverse. apply Hlast.
Qed.

Lemma compare_true_iff actual expected :
  compare actual expected = true ↔
  CompareSpec.normalize actual = CompareSpec.normalize expected.
Proof.
  unfold compare. rewrite String.eqb_eq, <- !chars_normalized.
  split; [by intros ->|apply chars_inj].
Qed.

(** C2. The comparison made by the grading loop is the comparison of the
    design document: trim the whitespace at both ends of the actual and of
    the expected output, delete every remaining space (a newline is kept),
    test equality. It holds on the four sample pairs, and an empty expected
    output is matched exactly by the outputs whose normal form is empty.
    What [strip] removes is a run of whitespace at each end, and what it
    leaves has no whitespace at either end. *)
Theorem compare_is_normalized_equality :
  (∀ actual expected,
     compare actual expected = CompareSpec.compare actual expected)
  ∧ compare "1 2 3" "1  2   3" = true
  ∧ compare "abc" "abd" = false
  ∧ compare "" "" = true
  ∧ compare " x " "x" = true
  ∧ compare ("a" +:+ LF +:+ "b") "a b" = false
  ∧ (∀ actual, compare actual "" = true ↔ CompareSpec.normalize actual = [])
  ∧ (∀ s, ∃ pre suf,
       chars s = pre ++ chars (strip s) ++ suf
       ∧ Forall (λ c, isspace c = true) pre
       ∧ Forall (λ c, isspace c = true) suf
       ∧ (∀ c, head (chars (strip s)) = Some c → isspace c = false)
       ∧ (∀ c, last (chars (strip s)) = Some c → isspace c = false)).
Proof.
  split_and!; try reflexivity.
  - intros actual expected. unfold CompareSpec.compare.
    destruct (compare actual expected) eqn:Hc.
    + apply compare_true_iff in Hc. by rewrite bool_decide_eq_true_2.
    + rewrite bool_decide_eq_false_2; [done|].
      intros H%compare_true_iff. congruence.
  - intros actual. apply compare_true_iff.
  - intros s. rewrite chars_strip. apply trim_spec.
Qed.

End comparator.

(** ** The grading loop *)

Section grading_loop.
Import PyStr Grader LoopSpec.

Implicit Types (env : Env) (a : Tally) (tests : list TestCase).

Lemma loop_body_step i case ex a a' :
  loop_body i case ex a = inr a' → step_kind i a a'.
Proof.
  unfold loop_body. destruct ex as [e|rc out err| |e]; [done|..].
  - destruct (negb _).
    + intros [= <-]. by eapply step_fail.
    + destruct (compare _ _); intros [= <-]; [by apply step_pass|].
      by eapply step_fail.
  - intros [= <-]. by eapply step_fail.
  - intros [= <-]. by eapply step_fail.
Qed.

Lemma loop_body_returns i case ex a :
  (∀ e, ex ≠ TempFileError e) → ∃ a', loop_body i case ex a = inr a'.
Proof.
  intros Hex. unfold loop_body. destruct ex as [e|rc out err| |e]; eauto.
  - by destruct (Hex e).
  - destruct (negb _); eauto. destruct (compare _ _); eauto.
Qed.

Lemma loop_accounts env code tests : ∀ i a a',
  loop env code i tests a = inr a' →
  ∃ idx msgs,
    error_details a' = error_details a ++ msgs
    ∧ labelled idx msgs
    ∧ StronglySorted lt idx
    ∧ Forall (λ j, i ≤ j < i + length tests)%nat idx
    ∧ passed_count a' + Z.of_nat (length idx)
      = passed_count a + Z.of_nat (length tests)
    ∧ passed_count a ≤ passed_count a'.
Proof.
  induction tests as [|case rest IH]; intros i a a'; simpl.
  - intros [= <-]. exists [], []. rewrite app_nil_r.
    split_and!; [done|constructor|constructor|constructor|simpl; lia|lia].
  - destruct (loop_body _ _ _ _) as [e|a1] eqn:Hbody; [done|].
    intros (idx & msgs & Herr & Hlab & Hsorted & Hrange & Hcount & Hmono)%IH.
    assert (Forall (λ j, i < j)%nat idx) as Hlt.
    { eapply Forall_impl; [exact Hrange|]. simpl. lia. }
    assert (Forall (λ j, i ≤ j < i + S (length rest))%nat idx) as Hrange'.
    { eapply Forall_impl; [exact Hrange|]. simpl. lia. }
    apply loop_body_step in Hbody as [Hp He|detail Hp He].
    + exists idx, msgs. rewrite Herr, He. split_and!; try done; lia.
    + exists (i :: idx), ((test_label i +:+ ": " +:+ detail) :: msgs).
      rewrite Herr, He, <- app_assoc. split_and!; try done.
      * constructor; eauto.
      * by constructor.
      * constructor; [lia|done].
      * simpl length. lia.
      * lia.
Qed.

Lemma loop_extends env code tests i a a' :
  loop env code i tests a = inr a' → error_details a `prefix_of` error_details a'.
Proof.
  intros (idx & msgs & -> & _)%loop_accounts. by apply prefix_app_r.
Qed.

(** A message appended by the body for test [i + j] is in the final list. *)
Lemma loop_keeps env code tests : ∀ i a a' j case msg,
  loop env code i tests a = inr a' →
  tests !! j = Some case →
  (∀ b, loop_body (i + j) case (exec env code (i + j) case) b
        = inr (append msg b)) →
  msg ∈ error_details a'.
Proof.
  induction tests as [|c rest IH]; intros i a a' j case msg; [done|]. simpl.
  destruct (loop_body _ _ _ _) as [e|a1] eqn:Hbody; [done|]. intros Hloop.
  destruct j as [|j]; simpl.
  - intros [= ->] Hmsg. rewrite Nat.add_0_r in Hmsg. 
    rewrite Hmsg in Hbody. injection Hbody as <-.
    apply loop_extends in Hloop as [k ->]. simpl. set_solver.
  - intros Hj Hmsg. eapply (IH (S i) a1 a' j case msg); [done..|].
    by replace (S i + j)%nat with (i + S j)%nat by lia.
Qed.

(** The loop ends normally when no temporary file fails. *)
Lemma loop_returns env code tests : ∀ i a,
  (∀ j case e, tests !! j = Some case →
               exec env code (i + j) case ≠ TempFileError e) →
  ∃ a', loop env code i tests a = inr a'.
Proof.
  induction tests as [|c rest IH]; intros i a Hok; simpl; [eauto|].
  destruct (loop_body_returns i c (exec env code i c) a) as [a1 Ha1].
  { intros e. specialize (Hok 0%nat c e eq_refl).
    by rewrite Nat.add_0_r in Hok. }
  rewrite Ha1. apply IH. intros j case e Hj.
  replace (S i + j)%nat with (i + S j)%nat by lia. by apply Hok.
Qed.

(** The first temporary file that fails ends the loop, and the call. *)
Lemma loop_raises env code tests : ∀ i a j case e,
  tests !! j = Some case →
  exec env code (i + j) case = TempFileError e →
  (∀ k c e', (k < j)%nat → tests !! k = Some c →
             exec env code (i + k) c ≠ TempFileError e') →
  loop env code i tests a = inl e.
Proof.
  induction tests as [|c rest IH]; intros i a j case e; [done|]. simpl.
  destruct j as [|j]; simpl.
  - intros [= ->] He _. rewrite Nat.add_0_r in He. by rewrite He.
  - intros Hj He Hbefore.
    destruct (loop_body_returns i c (exec env code i c) a) as [a1 Ha1].
    { intros e'. specialize (Hbefore 0%nat c e' ltac:(lia) eq_refl).
      by rewrite Nat.add_0_r in Hbefore. }
    rewrite Ha1. eapply (IH (S i) a1 j case e); [done|..].
    + by replace (S i + j)%nat with (i + S j)%nat by lia.
    + intros k c' e' Hk Hc'.
      replace (S i + k)%nat with (i + S k)%nat by lia.
      apply Hbefore; [lia|done].
Qed.


Lemma run_all_returns env code p :
  files_ok env code p → ∃ a, run_all env code p = inr a.
Proof. intros Hok. apply loop_returns. intros j case e. apply Hok. Qed.

Lemma run_all_accounts env code p a :
  run_all env code p = inr a →
  ∃ idx, labelled idx (error_details a)
    ∧ StronglySorted lt idx
    ∧ Forall (λ j, j < length (all_tests p))%nat idx
    ∧ passed_count a + Z.of_nat (length idx) = Z.of_nat (length (all_tests p))
    ∧ 0 ≤ passed_count a.
Proof.
  intros (idx & msgs & Herr & Hlab & Hsorted & Hrange & Hcount & ?)%loop_accounts.
  simpl in *. subst msgs. exists idx. split_and!; try done.
  eapply Forall_impl; [exact Hrange|]. simpl. lia.
Qed.

Lemma run_all_bounds env code p a :
  run_all env code p = inr a →
  0 ≤ passed_count a ≤ Z.of_nat (length (all_tests p))
  ∧ passed_count a + Z.of_nat (length (error_details a))
    = Z.of_nat (length (all_tests p)).
Proof.
  intros (idx & Hlab & Hsorted & Hrange & Hcount & ?)%run_all_accounts.
  apply Forall2_length in Hlab. rewrite <- Hlab. lia.
Qed.

(** The result of [grade_submission], read off the final state of the loop. *)
Lemma grade_submission_inr env code pid uid r :
  grade_submission env code pid uid = inr r →
  ∃ p a, test_cases env !! pid = Some p
    ∧ run_all env code p = inr a
    ∧ Result.score r = passed_count a
    ∧ Result.total r = Z.of_nat (length (all_tests p))
    ∧ Result.replay_result r
      = replay_result_of (passed_count a) (Z.of_nat (length (all_tests p)))
    ∧ Result.error_details r = take 5 (error_details a)
    ∧ Entry.error_details (Result.submission_entry r)
      = take 3 (error_details a).
Proof.
  unfold grade_submission. destruct (test_cases env !! pid) as [p|]; [|done].
  destruct (run_all env code p) as [e|a] eqn:Hrun; [done|].
  intros [= <-]. by exists p, a.
Qed.

Lemma grade_submission_returns env code pid uid p :
  test_cases env !! pid = Some p → files_ok env code p →
  ∃ r, grade_submission env code pid uid = inr r.
Proof.
  intros Hp [a Ha]%run_all_returns. unfold grade_submission.
  rewrite Hp, Ha. eauto.
Qed.

Lemma replay_result_of_cases passed total :
  0 ≤ passed ≤ total →
  (replay_result_of passed total = "passed" ↔ passed = total)
  ∧ (replay_result_of passed total = "failed" ↔ passed = 0 ∧ total ≠ 0)
  ∧ (replay_result_of passed total = "partially" ↔ 0 < passed < total).
Proof.
  intros Hb. unfold replay_result_of.
  destruct (Z.eqb_spec passed total) as [->|Hne];
    [|destruct (Z.ltb_spec 0 passed)];
    (split_and!; split; first [discriminate | lia | done | intros []; lia | idtac]).
Qed.

(** C1, as amended. The verdict of a graded submission is ["passed"]
    exactly when every test passed (also when there is no test at all),
    ["failed"] exactly when no test passed and there is at least one test,
    and ["partially"] exactly in between; the same holds of the verdict
    function on every pair of counts [0 <= passed <= total]. *)
Theorem verdict_of_counts env code pid uid r :
  grade_submission env code pid uid = inr r →
  0 ≤ Result.score r ≤ Result.total r
  ∧ (Result.replay_result r = "passed" ↔ Result.score r = Result.total r)
  ∧ (Result.replay_result r = "failed"
     ↔ Result.score r = 0 ∧ Result.total r ≠ 0)
  ∧ (Result.replay_result r = "partially"
     ↔ 0 < Result.score r < Result.total r)
  ∧ (∀ passed total, 0 ≤ passed ≤ total →
       (replay_result_of passed total = "passed" ↔ passed = total)
       ∧ (replay_result_of passed total = "failed" ↔ passed = 0 ∧ total ≠ 0)
       ∧ (replay_result_of passed total = "partially" ↔ 0 < passed < total)).
Proof.
  intros (p & a & _ & Hrun & Hs & Ht & Hv & _)%grade_submission_inr.
  apply run_all_bounds in Hrun as [Hb _]. rewrite Hs, Ht, Hv.
  split; [exact Hb|].
  destruct (replay_result_of_cases _ _ Hb) as (? & ? & ?).
  do 3 (split; [done|]). apply replay_result_of_cases.
Qed.

Lemma verdict_of_counts_witness :
  ∃ r, grade_submission Examples.prints_3 "print(3)" "add" "ann" = inr r
    ∧ (Result.replay_result r = "partially"
       ↔ 0 < Result.score r < Result.total r).
Proof.
  eexists. split; [vm_compute; reflexivity|].
  eapply (verdict_of_counts Examples.prints_3 "print(3)" "add" "ann").
  vm_compute. reflexivity.
Defined.

(** C1 as worded fails on a problem without tests: the count of passed
    tests is 0, within its bounds, and the verdict is ["passed"], not
    ["failed"]. *)
Lemma verdict_without_tests :
  ∃ r, grade_submission Examples.prints_3 "print(3)" "empty" "ann" = inr r
    ∧ 0 ≤ Result.score r ≤ Result.total r
    ∧ Result.score r = 0
    ∧ Result.replay_result r = "passed"
    ∧ Result.replay_result r ≠ "failed".
Proof. eexists. split; [vm_compute; reflexivity|]. simpl. split_and!; done. Qed.

(** C9. For a problem of the store, every report has as total the number of
    public tests plus the number of hidden tests, and a count of passed
    tests between 0 and that total; a report is returned whenever no
    temporary file fails; the tests are the public ones in stored order,
    followed by the hidden ones in stored order. *)
Theorem total_is_public_plus_hidden env code pid uid p :
  test_cases env !! pid = Some p →
  (∀ r, grade_submission env code pid uid = inr r →
        Result.total r = Z.of_nat (length (public_tests p))
                         + Z.of_nat (length (hidden_tests p))
        ∧ 0 ≤ Result.score r ≤ Result.total r)
  ∧ (files_ok env code p → ∃ r, grade_submission env code pid uid = inr r)
  ∧ (∀ i case, all_tests p !! i = Some case ↔
       public_tests p !! i = Some case
       ∨ (length (public_tests p) ≤ i)%nat
         ∧ hidden_tests p !! (i - length (public_tests p))%nat = Some case).
Proof.
  intros Hp. split_and!.
  - intros r Hr. pose proof Hr as (p' & a & Hp' & Hrun & Hs & Ht & _)%grade_submission_inr.
    assert (p' = p) as -> by congruence.
    apply run_all_bounds in Hrun as [Hb _]. rewrite Hs, Ht.
    split; [|done]. unfold all_tests. rewrite length_app. lia.
  - by apply grade_submission_returns.
  - intros i case. unfold all_tests. apply lookup_app_Some.
Qed.

Lemma total_is_public_plus_hidden_witness :
  ∃ r, grade_submission Examples.hangs "while True: pass" "six" "bob" = inr r
       ∧ Result.total r = 6 ∧ Result.score r = 0.
Proof.
  destruct (total_is_public_plus_hidden Examples.hangs "while True: pass"
              "six" "bob" Examples.six eq_refl) as (Htotal & Hret & _).
  destruct Hret as [r Hr]; [intros i case e _; discriminate|].
  exists r. split; [done|]. destruct (Htotal r Hr) as [Ht Hs].
  split; [exact Ht|]. vm_compute in Hr. by injection Hr as <-.
Defined.

(** C10. Each pass through the loop body either adds one to the count of
    passed tests or appends one message, never both and never neither; so
    when the loop ends the count of passed tests plus the number of
    messages (before any truncation) is the number of tests, and the
    messages are those of the failed tests in strictly increasing order of
    test index. *)
Theorem one_count_or_one_message env code p a :
  run_all env code p = inr a →
  passed_count a + Z.of_nat (length (error_details a))
    = Z.of_nat (length (all_tests p))
  ∧ (∃ idx, labelled idx (error_details a)
       ∧ StronglySorted lt idx
       ∧ Forall (λ j, j < length (all_tests p))%nat idx)
  ∧ (∀ i case ex b b', loop_body i case ex b = inr b' → step_kind i b b')
  ∧ (∀ pid uid r, test_cases env !! pid = Some p →
       grade_submission env code pid uid = inr r →
       Result.score r = passed_count a
       ∧ Result.total r = Z.of_nat (length (all_tests p))
       ∧ Result.error_details r = take 5 (error_details a)).
Proof.
  intros Hrun. split_and!.
  - by apply run_all_bounds in Hrun as [_ ?].
  - apply run_all_accounts in Hrun as (idx & ? & ? & ? & _). eauto.
  - apply loop_body_step.
  - intros pid uid r Hp (p' & a' & Hp' & Hrun' & ? & ? & _ & ? & _)%grade_submission_inr.
    assert (p' = p) as -> by congruence.
    assert (a' = a) as -> by congruence. done.
Qed.

Lemma one_count_or_one_message_witness :
  ∃ a, run_all Examples.prints_3 "print(3)" Examples.add = inr a
       ∧ passed_count a + Z.of_nat (length (error_details a)) = 3.
Proof.
  eexists. split; [vm_compute; reflexivity|].
  apply (one_count_or_one_message Examples.prints_3 "print(3)" Examples.add).
  vm_compute. reflexivity.
Defined.

Lemma loop_body_nonzero i case returncode stdout stderr a :
  returncode ≠ 0 →
  loop_body i case (Completed returncode stdout stderr) a
  = inr (append (test_label i +:+ ": Runtime error - " +:+ strip stderr) a).
Proof.
  intros Hrc. unfold loop_body.
  by destruct (Z.eqb_spec returncode 0) as [?|_].
Qed.

(** C7, as amended. While no temporary file fails, a test whose child exits
    with a non-zero status or runs out of time is recorded as failed and the
    loop goes on: the submission gets a score and a verdict over all the
    tests, the final list of messages holds
    ["Test {i+1}: Runtime error - "] followed by the captured standard error
    with the whitespace at its two ends removed for the former, and
    ["Test {i+1}: Timeout (exceeded 5 seconds)"] for the latter. *)
Theorem test_failures_are_recovered env code pid uid p :
  test_cases env !! pid = Some p →
  files_ok env code p →
  ∃ a r,
    run_all env code p = inr a
    ∧ grade_submission env code pid uid = inr r
    ∧ Result.score r = passed_count a
    ∧ Result.total r = Z.of_nat (length (all_tests p))
    ∧ passed_count a + Z.of_nat (length (error_details a)) = Result.total r
    ∧ Result.replay_result r ∈ ["passed"; "partially"; "failed"]
    ∧ (∀ i case, all_tests p !! i = Some case →
         match exec env code i case with
         | Completed returncode stdout stderr =>
             returncode ≠ 0 →
             test_label i +:+ ": Runtime error - " +:+ strip stderr
               ∈ error_details a
         | TimeoutExpired =>
             test_label i +:+ ": Timeout (exceeded 5 seconds)"
               ∈ error_details a
         | _ => True
         end)
    ∧ (∀ i case returncode stdout stderr b, returncode ≠ 0 →
         loop_body i case (Completed returncode stdout stderr) b
         = inr (append (test_label i +:+ ": Runtime error - "
                          +:+ strip stderr) b))
    ∧ (∀ i case b,
         loop_body i case TimeoutExpired b
         = inr (append (test_label i +:+ ": Timeout (exceeded 5 seconds)") b)).
Proof.
  intros Hp Hok.
  destruct (run_all_returns env code p Hok) as [a Ha].
  destruct (grade_submission_returns env code pid uid p Hp Hok) as [r Hr].
  exists a, r.
  pose proof Hr as (p' & a' & Hp' & Ha' & Hs & Ht & Hv & _)%grade_submission_inr.
  assert (p' = p) as -> by congruence. assert (a' = a) as -> by congruence.
  pose proof (run_all_bounds _ _ _ _ Ha) as [Hb Hsum].
  split_and!; try done.
  - by rewrite Ht.
  - rewrite Hv. unfold replay_result_of.
    destruct (_ =? _); [|destruct (_ <? _)]; repeat constructor.
  - intros i case Hcase.
    destruct (exec env code i case) as [e|rc out err| |e] eqn:Hex; [done| | |done].
    + intros Hrc. eapply (loop_keeps env code _ 0%nat _ a i case); [exact Ha|done|].
      intros b. simpl. rewrite Hex. by apply loop_body_nonzero.
    + eapply (loop_keeps env code _ 0%nat _ a i case); [exact Ha|done|].
      intros b. simpl. by rewrite Hex.
  - intros. by apply loop_body_nonzero.
Qed.

Lemma test_failures_are_recovered_witness :
  ∃ a r,
    run_all Examples.hangs "while True: pass" Examples.six = inr a
    ∧ grade_submission Examples.hangs "while True: pass" "six" "bob" = inr r
    ∧ Result.total r = 6
    ∧ "Test 6: Timeout (exceeded 5 seconds)" ∈ error_details a.
Proof.
  destruct (test_failures_are_recovered Examples.hangs "while True: pass"
              "six" "bob" Examples.six eq_refl)
    as (a & r & Ha & Hr & _ & Ht & _ & _ & Hmsg & _).
  { intros i case e _. discriminate. }
  exists a, r. split_and!; [done..|].
  apply (Hmsg 5%nat (Examples.tc "6" "6") eq_refl).
Defined.

(** C7 as worded fails twice. The message of a crashed test carries the
    standard error without its final newline, not the captured text; and a
    problem of the store gets no score when a temporary file cannot be
    written. *)
Lemma stderr_is_stripped_and_files_may_fail :
  (exec Examples.crashes "raise" 0 (Examples.tc "1 2" "3")
     = Completed 1 "" ("boom" +:+ LF)
   ∧ ∃ a, run_all Examples.crashes "raise" Examples.add = inr a
      ∧ (("Test 1: Runtime error - " +:+ ("boom" +:+ LF)) ∉ error_details a)
      ∧ "Test 1: Runtime error - boom" ∈ error_details a)
  ∧ test_cases Examples.disk_full !! "add" = Some Examples.add
  ∧ ∀ r, grade_submission Examples.disk_full "print(3)" "add" "ann" ≠ inr r.
Proof.
  split_and!; [reflexivity| |reflexivity|by vm_compute].
  eexists. split; [vm_compute; reflexivity|]. simpl.
  split; [|set_solver].
  rewrite !elem_of_cons, elem_of_nil. intros [H|[H|[H|[]]]]; discriminate H.
Qed.

Section server_errors.
Import Server PathSpec.



Lemma submit_code_absent env now subs sub :
  path_exists env
    (os_path_join "test_cases" (Submission.problem_id sub +:+ ".json"))
  = false →
  submit_code env now subs sub
  = (HTTPException 404 "Problem test cases not found", subs).
Proof. intros H. unfold submit_code. by rewrite H. Qed.

Lemma submit_code_present env now subs sub :
  path_exists env
    (os_path_join "test_cases" (Submission.problem_id sub +:+ ".json"))
  = true →
  match grade_submission env (Submission.code sub)
          (Submission.problem_id sub) (Submission.user_id sub) with
  | inl e =>
      submit_code env now subs sub
      = (HTTPException 500 ("Grading failed: " +:+ str_of_raised e), subs)
  | inr r =>
      ∃ entry,
        submit_code env now subs sub
        = (Returned {| Grade.score := Result.score r;
                       Grade.total := Result.total r;
                       Grade.replay_result := Result.replay_result r;
                       Grade.error_details := take 3 (Result.error_details r) |}
             entry, update_leaderboard entry subs)
        ∧ Entry.user_id entry = Submission.user_id sub
        ∧ Entry.problem_id entry = Submission.problem_id sub
        ∧ Entry.score entry = Result.score r
        ∧ Entry.timestamp entry = now
        ∧ Entry.error_details entry = Result.error_details r
  end.
Proof.
  intros H. unfold submit_code. rewrite H. simpl.
  destruct (grade_submission _ _ _ _) as [e|r]; [done|].
  eexists. split; [reflexivity|]. done.
Qed.

(** The answers of [submit_code], whatever the check says. *)
Lemma submit_code_cases env now subs sub :
  submit_code env now subs sub
  = (HTTPException 404 "Problem test cases not found", subs)
  ∨ match grade_submission env (Submission.code sub)
            (Submission.problem_id sub) (Submission.user_id sub) with
    | inl e =>
        submit_code env now subs sub
        = (HTTPException 500 ("Grading failed: " +:+ str_of_raised e), subs)
    | inr r =>
        ∃ entry,
          submit_code env now subs sub
          = (Returned {| Grade.score := Result.score r;
                         Grade.total := Result.total r;
                         Grade.replay_result := Result.replay_result r;
                         Grade.error_details :=
                           take 3 (Result.error_details r) |}
               entry, update_leaderboard entry subs)
          ∧ Entry.user_id entry = Submission.user_id sub
          ∧ Entry.problem_id entry = Submission.problem_id sub
          ∧ Entry.score entry = Result.score r
          ∧ Entry.timestamp entry = now
          ∧ Entry.error_details entry = Result.error_details r
    end.
Proof.
  destruct (path_exists env
              (os_path_join "test_cases"
                 (Submission.problem_id sub +:+ ".json"))) eqn:Hex.
  - right. by apply submit_code_present.
  - left. by apply submit_code_absent.
Qed.




(** C8, as amended. The two failures of the runner take different paths.
    The first temporary file that cannot be written ends
    [grade_submission] with the exception, [submit_code], once its
    existence check has passed, answers 500 ["Grading failed: ..."] and the
    leaderboard is left as it is. A child
    that cannot be started is caught inside the loop: the test is recorded
    as failed with ["Test {i+1}: Execution error - "] followed by the text
    of the exception, the loop goes on, and the score is below the total. *)
Theorem runner_failure_paths env now subs sub p i case e msg :
  let code := Submission.code sub in
  let grade :=
    grade_submission env code (Submission.problem_id sub)
      (Submission.user_id sub) in
  test_cases env !! Submission.problem_id sub = Some p →
  all_tests p !! i = Some case →
  (exec env code i case = TempFileError e →
   (∀ k c e', (k < i)%nat → all_tests p !! k = Some c →
              exec env code k c ≠ TempFileError e') →
   grade = inl e
   ∧ (path_exists env
        (os_path_join "test_cases" (Submission.problem_id sub +:+ ".json"))
      = true →
      submit_code env now subs sub
      = (HTTPException 500 ("Grading failed: " +:+ str_of_raised e), subs)))
  ∧ (exec env code i case = RunError msg →
     files_ok env code p →
     ∃ a r, run_all env code p = inr a
       ∧ grade = inr r
       ∧ test_label i +:+ ": Execution error - " +:+ msg ∈ error_details a
       ∧ Result.score r < Result.total r).
Proof.
  intros code grade Hp Hcase. split.
  - intros Hex Hbefore.
    assert (grade = inl e) as Hg.
    { unfold grade, grade_submission. rewrite Hp.
      unfold run_all. by erewrite (loop_raises env code _ 0%nat _ i case e). }
    split; [done|]. intros Hcheck.
    pose proof (submit_code_present env now subs sub Hcheck) as Hs.
    fold code grade in Hs. by rewrite Hg in Hs.
  - intros Hex Hok.
    destruct (run_all_returns env code p Hok) as [a Ha].
    destruct (grade_submission_returns env code (Submission.problem_id sub)
                (Submission.user_id sub) p Hp Hok) as [r Hr].
    fold grade in Hr. exists a, r.
    pose proof Hr as (p' & a' & Hp' & Ha' & Hs & Ht & _)%grade_submission_inr.
    assert (p' = p) as -> by congruence. assert (a' = a) as -> by congruence.
    assert (test_label i +:+ ": Execution error - " +:+ msg ∈ error_details a)
      as Hin.
    { eapply (loop_keeps env code _ 0%nat _ a i case); [exact Ha|done|].
      intros b. simpl. by rewrite Hex. }
    split_and!; try done.
    apply run_all_bounds in Ha as [_ Hsum]. rewrite Hs, Ht.
    destruct (error_details a); [set_solver|]. simpl length in Hsum. lia.
Qed.

Lemma runner_failure_paths_witness :
  (submit_code Examples.disk_full "2024-05-01T12:00:01" []
     (Examples.request "ann" "add")
   = (HTTPException 500
        "Grading failed: [Errno 28] No space left on device", []))
  ∧ ∃ r, grade_submission Examples.no_python "def solve(): print(3)"
           "add" "ann" = inr r
         ∧ Result.score r < Result.total r.
Proof.
  split.
  - apply (runner_failure_paths Examples.disk_full "2024-05-01T12:00:01" []
             (Examples.request "ann" "add") Examples.add 1
             (Examples.tc "2 2" "4")
             (OSError "[Errno 28] No space left on device") ""
             eq_refl eq_refl); [reflexivity| |reflexivity].
    intros k c e' Hk. assert (k = 0%nat) as -> by lia. discriminate.
  - destruct (runner_failure_paths Examples.no_python "2024-05-01T12:00:01"
                [] (Examples.request "ann" "add") Examples.add 0
                (Examples.tc "1 2" "3") (OSError "")
                "[Errno 2] No such file or directory: 'python'"
                eq_refl eq_refl) as [_ H].
    destruct H as (a & r & _ & Hr & _ & Hlt); [reflexivity| |by eauto].
    intros k c e' _. discriminate.
Defined.

(** C8 as worded fails when no child can be started: grading ends normally,
    every test is counted as failed, and the answer is a score of 0 with the
    verdict ["failed"], not an error. *)
Lemma spawn_failure_is_a_failed_test :
  (∀ i s, subprocess_run Examples.no_python i s
          = RunError "[Errno 2] No such file or directory: 'python'")
  ∧ ∃ grade entry subs,
      submit_code Examples.no_python "2024-05-01T12:00:01" []
        (Examples.request "ann" "add") = (Returned grade entry, subs)
      ∧ Grade.score grade = 0 ∧ Grade.total grade = 3
      ∧ Grade.replay_result grade = "failed"
      ∧ Grade.error_details grade
        = ["Test 1: Execution error - [Errno 2] No such file or directory: 'python'";
           "Test 2: Execution error - [Errno 2] No such file or directory: 'python'";
           "Test 3: Execution error - [Errno 2] No such file or directory: 'python'"].
Proof.
  split; [done|]. do 3 eexists.
  split; [vm_compute; reflexivity|]. done.
Qed.

(** The caps on the messages that hold: the result keeps the first five,
    the entry built by the grader and the ["grade"] of the answer keep the
    first three. *)
Lemma diagnostics_caps env now subs sub r :
  path_exists env
    (os_path_join "test_cases" (Submission.problem_id sub +:+ ".json"))
  = true →
  grade_submission env (Submission.code sub) (Submission.problem_id sub)
    (Submission.user_id sub) = inr r →
  ∃ p a grade entry,
    run_all env (Submission.code sub) p = inr a
    ∧ submit_code env now subs sub
      = (Returned grade entry, update_leaderboard entry subs)
    ∧ Result.error_details r = take 5 (error_details a)
    ∧ Entry.error_details (Result.submission_entry r)
      = take 3 (error_details a)
    ∧ Grade.error_details grade = take 3 (error_details a)
    ∧ Entry.error_details entry = take 5 (error_details a).
Proof.
  intros Hcheck Hr.
  pose proof Hr as (p & a & Hp & Ha & _ & _ & _ & H5 & H3)%grade_submission_inr.
  pose proof (submit_code_present env now subs sub Hcheck) as Hs.
  rewrite Hr in Hs. destruct Hs as (entry & Hs & _ & _ & _ & _ & He).
  eexists p, a, _, entry. split_and!; [done..| |by rewrite He].
  simpl. rewrite H5, take_take. done.
Qed.

(** C6 at a submission that fails six tests: the ["grade"] of the answer
    carries three messages, the entry put on the leaderboard carries five. *)
Theorem stored_entry_keeps_five_messages :
  ∃ grade entry,
    submit_code Examples.hangs "2024-05-01T12:00:01" []
      (Examples.request "bob" "six") = (Returned grade entry, [entry])
    ∧ length (Grade.error_details grade) = 3%nat
    ∧ length (Entry.error_details entry) = 5%nat
    ∧ Entry.error_details entry !! 3%nat
      = Some "Test 4: Timeout (exceeded 5 seconds)".
Proof. do 2 eexists. split; [vm_compute; reflexivity|]. done. Qed.

End server_errors.
End grading_loop.

(** ** The leaderboard: recording a submission *)

Section record.
Import Grader Server LeaderboardSpec.

Implicit Types (subs : list Entry.t) (entry existing : Entry.t).

Lemma same_pair_pair_of user problem x :
  same_pair user problem x ↔ pair_of x = (user, problem).
Proof. unfold same_pair, pair_of. split; [by intros [-> ->]|by intros [= -> ->]]. Qed.

(** With unique pairs, an entry of the pair is the one the search finds. *)
Lemma list_find_unique subs i x user problem :
  unique_pairs subs → subs !! i = Some x → same_pair user problem x →
  list_find (same_pair user problem) subs = Some (i, x).
Proof.
  intros Hnd Hi Hx. apply list_find_Some. split_and!; [done..|].
  intros j y Hj Hlt Hy. apply same_pair_pair_of in Hx, Hy.
  assert (i = j); [|lia].
  eapply (NoDup_lookup _ i j (user, problem) Hnd); rewrite list_lookup_fmap.
  - by rewrite Hi; simpl; rewrite Hx.
  - by rewrite Hj; simpl; rewrite Hy.
Qed.

Lemma update_leaderboard_new entry subs :
  retained (Entry.user_id entry) (Entry.problem_id entry) subs = None →
  update_leaderboard entry subs = subs ++ [entry].
Proof.
  unfold retained, update_leaderboard.
  by destruct (list_find _ subs) as [[i x]|].
Qed.

Lemma update_leaderboard_found entry subs i existing :
  list_find (same_pair (Entry.user_id entry) (Entry.problem_id entry)) subs
    = Some (i, existing) →
  update_leaderboard entry subs
  = if Entry.score existing <? Entry.score entry
    then <[i := entry]> subs else subs.
Proof. intros H. unfold update_leaderboard. by rewrite H. Qed.

Lemma unique_pairs_update entry subs :
  unique_pairs subs → unique_pairs (update_leaderboard entry subs).
Proof.
  intros Hnd. unfold update_leaderboard.
  destruct (list_find _ subs) as [[i x]|] eqn:Hfind.
  - destruct (_ <? _); [|done].
    apply list_find_Some in Hfind as (Hi & Hx%same_pair_pair_of & _).
    unfold unique_pairs. rewrite list_fmap_insert.
    rewrite list_insert_id; [done|].
    rewrite list_lookup_fmap, Hi. simpl. by rewrite Hx.
  - apply list_find_None in Hfind.
    unfold unique_pairs. rewrite fmap_app. simpl.
    apply NoDup_app. split_and!; [done| |apply NoDup_singleton].
    intros k Hk ->%list_elem_of_singleton.
    apply list_elem_of_fmap in Hk as (y & Hy & Hin).
    rewrite Forall_forall in Hfind. apply (Hfind y Hin).
    by apply same_pair_pair_of.
Qed.

(** What is kept for the pair of the new entry after the update. *)
Lemma retained_update entry subs :
  retained (Entry.user_id entry) (Entry.problem_id entry)
    (update_leaderboard entry subs)
  = match retained (Entry.user_id entry) (Entry.problem_id entry) subs with
    | None => Some entry
    | Some existing =>
        if Entry.score existing <? Entry.score entry
        then Some entry else Some existing
    end.
Proof.
  unfold retained, update_leaderboard.
  set (P := same_pair (Entry.user_id entry) (Entry.problem_id entry)).
  assert (P entry) as HP by done.
  destruct (list_find P subs) as [[i x]|] eqn:Hfind; simpl.
  - destruct (_ <? _); [|by rewrite Hfind].
    apply list_find_Some in Hfind as (Hi & Hx & Hleast).
    assert (list_find P (<[i:=entry]> subs) = Some (i, entry)) as ->; [|done].
    apply list_find_Some. split_and!; [|done|].
    + apply list_lookup_insert_eq. by eapply lookup_lt_Some.
    + intros j y Hj Hlt. rewrite list_lookup_insert_ne in Hj by lia. eauto.
  - rewrite list_find_app_r by done. simpl.
    rewrite decide_True by done. done.
Qed.

(** C3. Recording an entry keeps the store free of duplicates of a
    (user, problem) pair. A pair without entry gets the new entry, appended;
    an entry of the pair with a strictly lower score is overwritten where it
    stands by the new entry, which brings its own timestamp; with an equal
    or greater score the store is left as it is. So after scores 3, 5 and 2
    for one pair, in this order, the pair keeps the second entry, the one
    with score 5 and its timestamp. *)
Theorem record_keeps_best entry subs :
  unique_pairs subs →
  let user := Entry.user_id entry in
  let problem := Entry.problem_id entry in
  unique_pairs (update_leaderboard entry subs)
  ∧ (retained user problem subs = None →
     update_leaderboard entry subs = subs ++ [entry])
  ∧ (∀ i existing,
       subs !! i = Some existing → same_pair user problem existing →
       retained user problem subs = Some existing
       ∧ (Entry.score existing < Entry.score entry →
          update_leaderboard entry subs = <[i := entry]> subs
          ∧ retained user problem (update_leaderboard entry subs) = Some entry)
       ∧ (Entry.score entry ≤ Entry.score existing →
          update_leaderboard entry subs = subs))
  ∧ (∀ second third,
       retained user problem subs = None →
       same_pair user problem second → same_pair user problem third →
       Entry.score entry = 3 → Entry.score second = 5 →
       Entry.score third = 2 →
       let final :=
         update_leaderboard third
           (update_leaderboard second (update_leaderboard entry subs)) in
       unique_pairs final
       ∧ retained user problem final = Some second).
Proof.
  intros Hnd user problem. split_and!.
  - by apply unique_pairs_update.
  - apply update_leaderboard_new.
  - intros i existing Hi Hx.
    pose proof (list_find_unique subs i existing user problem Hnd Hi Hx) as Hf.
    split_and!.
    + unfold retained. by rewrite Hf.
    + intros Hlt. pose proof (retained_update entry subs) as Hr.
      fold user problem in Hr. unfold retained at 2 in Hr. rewrite Hf in Hr.
      simpl in Hr. rewrite (update_leaderboard_found _ _ _ _ Hf) in *.
      by destruct (Z.ltb_spec (Entry.score existing) (Entry.score entry)); [|lia].
    + intros Hle. rewrite (update_leaderboard_found _ _ _ _ Hf).
      by destruct (Z.ltb_spec (Entry.score existing) (Entry.score entry)); [lia|].
  - intros second third Hnone [Hu2 Hp2] [Hu3 Hp3] Hs1 Hs2 Hs3 final.
    split; [by do 3 apply unique_pairs_update|].
    pose proof (retained_update entry subs) as H1.
    fold user problem in H1. rewrite Hnone in H1.
    pose proof (retained_update second (update_leaderboard entry subs)) as H2.
    rewrite Hu2, Hp2, H1, Hs1, Hs2 in H2. simpl in H2.
    pose proof (retained_update third
      (update_leaderboard second (update_leaderboard entry subs))) as H3.
    rewrite Hu3, Hp3, H2, Hs2, Hs3 in H3. exact H3.
Qed.

Lemma record_keeps_best_witness :
  let first := Examples.entry "s1" "ann" "add" 3 Examples.t1 in
  let second := Examples.entry "s2" "ann" "add" 5 Examples.t5 in
  let third := Examples.entry "s3" "ann" "add" 2 Examples.t10 in
  retained "ann" "add"
    (update_leaderboard third
       (update_leaderboard second (update_leaderboard first [])))
  = Some second.
Proof.
  intros first second third.
  destruct (record_keeps_best first [] (NoDup_nil_2 : unique_pairs []))
    as (_ & _ & _ & H).
  apply (H second third); done.
Defined.

End record.

(** ** The leaderboard: ranking *)

Section ranking.
Import Grader Server LeaderboardSpec.

Lemma string_ltb_false s1 s2 : String.ltb s2 s1 = false ↔ (s1 ≤ s2)%string.
Proof.
  unfold String.le, String.leb, String.ltb.
  rewrite (String.compare_antisym s1 s2).
  destruct (String.compare s2 s1); simpl; split; done.
Qed.

Lemma key_le_iff a b :
  key_le a b ↔ a.1 < b.1 ∨ a.1 = b.1 ∧ (a.2 ≤ b.2)%string.
Proof.
  unfold key_le, tuple_lt.
  destruct (Z.eqb_spec b.1 a.1) as [Heq|Hne].
  - rewrite string_ltb_false. split; [auto|]. intros [?|[_ ?]]; [lia|done].
  - rewrite Z.ltb_ge. split; [intros ?; left; lia|]. intros [?|[? _]]; lia.
Qed.

#[local] Instance key_le_trans : Transitive key_le.
Proof.
  intros a b c. rewrite !key_le_iff.
  intros [?|[? Hab]] [?|[? Hbc]]; try (left; lia).
  right. split; [lia|]. by etrans.
Qed.

Lemma key_le_total a b : key_le a b ∨ key_le b a.
Proof.
  rewrite !key_le_iff.
  destruct (Z.lt_total a.1 b.1) as [?|[?|?]]; [auto| |auto].
  destruct (total String.le a.2 b.2); auto.
Qed.

Lemma tuple_lt_irrefl a : tuple_lt a a = false.
Proof. apply key_le_iff. right. split; [done|]. reflexivity. Qed.

Lemma tuple_lt_key_le a b : tuple_lt a b = true → key_le a b.
Proof.
  intros Hlt. destruct (key_le_total a b) as [?|Hba]; [done|].
  unfold key_le in Hba. congruence.
Qed.

Section sorted_facts.
Context {A : Type} (key : A → SortKey).

Let R (x y : A) : Prop := key_le (key x) (key y).

Lemma insort_perm x l : insort key x l ≡ₚ x :: l.
Proof.
  induction l as [|y l IH]; simpl; [done|].
  destruct (tuple_lt _ _); [|done]. rewrite IH. apply Permutation_swap.
Qed.

Lemma sorted_perm l : sorted key l ≡ₚ l.
Proof.
  induction l as [|x l IH]; simpl; [done|]. by rewrite insort_perm, IH.
Qed.

Lemma insort_hd x y l :
  R y x → HdRel R y l → HdRel R y (insort key x l).
Proof.
  intros Hyx Hl. destruct l as [|z l]; simpl; [by constructor|].
  destruct (tuple_lt _ _); constructor; [|done]. by inversion Hl.
Qed.

Lemma insort_sorted x l : Sorted R l → Sorted R (insort key x l).
Proof.
  induction 1 as [|y l Hl IH Hhd]; simpl; [by repeat constructor|].
  destruct (tuple_lt (key y) (key x)) eqn:Hlt.
  - constructor; [done|]. apply insort_hd; [|done]. by apply tuple_lt_key_le.
  - constructor; [by constructor|]. by constructor.
Qed.

Lemma sorted_Sorted l : Sorted R (sorted key l).
Proof.
  induction l as [|x l IH]; simpl; [constructor|]. by apply insort_sorted.
Qed.

Lemma sorted_StronglySorted l : StronglySorted R (sorted key l).
Proof.
  apply Sorted_StronglySorted; [|apply sorted_Sorted].
  intros x y z. unfold R. apply key_le_trans.
Qed.

(** The sort is stable: the elements of one key keep their order. *)
Lemma insort_stable k x l :
  filter (λ y, key y = k) (insort key x l) = filter (λ y, key y = k) (x :: l).
Proof.
  induction l as [|y l IH]; simpl; [done|].
  destruct (tuple_lt (key y) (key x)) eqn:Hlt; [|done].
  assert (key y ≠ key x) as Hne.
  { intros Heq. rewrite Heq, tuple_lt_irrefl in Hlt. done. }
  rewrite filter_cons, IH, !filter_cons.
  destruct (decide (key y = k)) as [Hy|Hy];
    destruct (decide (key x = k)) as [Hx|Hx]; try done. congruence.
Qed.

Lemma sorted_stable k l :
  filter (λ y, key y = k) (sorted key l) = filter (λ y, key y = k) l.
Proof.
  induction l as [|x l IH]; simpl; [done|].
  by rewrite insort_stable, !filter_cons, IH.
Qed.

End sorted_facts.

Lemma StronglySorted_weaken {A} (R1 R2 : relation A) l :
  (∀ x y, R1 x y → R2 x y) → StronglySorted R1 l → StronglySorted R2 l.
Proof.
  intros HR. induction 1 as [|x l Hl IH Hx]; constructor; [done|].
  eapply Forall_impl; [exact Hx|]. apply HR.
Qed.

Lemma ranks_before_key r1 r2 :
  key_le (row_key r1) (row_key r2) ↔ ranks_before r1 r2.
Proof.
  rewrite key_le_iff. unfold row_key, ranks_before. simpl.
  split; (intros [?|[? ?]]; [left; lia|right; split; [lia|done]]).
Qed.

(** C4, as amended. The leaderboard is sorted by score, highest first, and
    among equal scores by timestamp, earliest first; it holds the rows that
    were collected problem by problem, and rows with the same score and the
    same timestamp stay in the order in which they were collected (the
    submission id plays no part). On the three entries of the example the
    order is u2, u1, u3. *)
Theorem leaderboard_is_sorted :
  (∀ subs,
     StronglySorted ranks_before (get_leaderboard subs)
     ∧ get_leaderboard subs ≡ₚ unsorted_leaderboard subs
     ∧ ∀ k, filter (λ r, row_key r = k) (get_leaderboard subs)
            = filter (λ r, row_key r = k) (unsorted_leaderboard subs))
  ∧ Row.user_id <$> get_leaderboard Examples.ranking_example
    = ["u2"; "u1"; "u3"].
Proof.
  split; [|by vm_compute]. intros subs.
  destruct subs as [|e subs]; [by split_and!; [constructor|..]|].
  unfold get_leaderboard. split_and!.
  - eapply StronglySorted_weaken; [|apply (sorted_StronglySorted row_key)].
    intros r1 r2. apply ranks_before_key.
  - apply sorted_perm.
  - intros k. apply sorted_stable.
Qed.

(** C4 as worded fails on a tie: two entries of different users with one
    score and one timestamp come out in the order of the stored list,
    whichever of the two has the smaller submission id. *)
Lemma ties_keep_stored_order :
  Entry.score Examples.tie_b = Entry.score Examples.tie_a
  ∧ Entry.timestamp Examples.tie_b = Entry.timestamp Examples.tie_a
  ∧ String.ltb (Entry.submission_id Examples.tie_a)
               (Entry.submission_id Examples.tie_b) = true
  ∧ Row.user_id <$> get_leaderboard [Examples.tie_b; Examples.tie_a]
    = [Entry.user_id Examples.tie_b; Entry.user_id Examples.tie_a]
  ∧ Row.user_id <$> get_leaderboard [Examples.tie_a; Examples.tie_b]
    = [Entry.user_id Examples.tie_a; Entry.user_id Examples.tie_b].
Proof. by vm_compute. Qed.

End ranking.

(** * Further properties *)

(** ** The grading loop as a map over the tests *)

Section loop_view.
Import PyStr Grader LoopSpec Views.

Lemma loop_body_view i case ex a a' :
  loop_body i case ex a = inr a' →
  a' = match failure_message i case ex with
       | Some msg => append msg a
       | None => {| passed_count := passed_count a + 1;
                    error_details := error_details a |}
       end.
Proof.
  unfold failure_message, loop_body.
  destruct ex as [e|rc out err| |e]; [done|..].
  - destruct (negb _); [by intros [= <-]|].
    destruct (compare _ _); by intros [= <-].
  - by intros [= <-].
  - by intros [= <-].
Qed.

Lemma messages_cons env code i case rest :
  messages env code i (case :: rest)
  = failure_message i case (exec env code i case)
    :: messages env code (S i) rest.
Proof.
  unfold messages. rewrite imap_cons, Nat.add_0_r. f_equal.
  apply imap_ext. intros j c _. simpl.
  by replace (i + S j)%nat with (S (i + j)) by lia.
Qed.

Lemma loop_view env code tests : ∀ i a a',
  loop env code i tests a = inr a' →
  error_details a' = error_details a ++ omap id (messages env code i tests)
  ∧ passed_count a'
    = passed_count a
      + Z.of_nat (length (filter (λ m, m = None) (messages env code i tests))).
Proof.
  induction tests as [|case rest IH]; intros i a a'.
  - simpl. intros [= <-]. rewrite app_nil_r. split; [done|]. simpl. lia.
  - rewrite messages_cons. cbn [loop].
    destruct (loop_body _ _ _ _) as [e|a1] eqn:Hbody; [done|].
    intros [He Hp]%IH. apply loop_body_view in Hbody. rewrite He, Hp, Hbody.
    destruct (failure_message _ _ _) as [msg|]; cbn [omap list_omap id].
    + rewrite filter_cons_False by done. simpl. by rewrite <- app_assoc.
    + rewrite filter_cons_True by done. simpl. split; [done|]. lia.
Qed.

(** X1. When grading returns, the score is the number of tests that left no
    message, the full list of messages is the list of the messages of the
    failed tests in test order, and the result carries its first five. *)
Theorem grading_is_a_map_over_the_tests env code pid uid r :
  grade_submission env code pid uid = inr r →
  ∃ p, test_cases env !! pid = Some p
    ∧ Result.score r
      = Z.of_nat (length (filter (λ m, m = None)
                            (messages env code 0 (all_tests p))))
    ∧ Result.error_details r
      = take 5 (omap id (messages env code 0 (all_tests p)))
    ∧ Entry.error_details (Result.submission_entry r)
      = take 3 (Result.error_details r).
Proof.
  intros (p & a & Hp & Ha & Hs & _ & _ & H5 & H3)%grade_submission_inr.
  exists p. apply loop_view in Ha as [He Hc]. simpl in He, Hc.
  rewrite Hs, H5, H3, He, Hc, take_take. by split_and!.
Qed.

Lemma grading_is_a_map_over_the_tests_witness :
  ∃ r, grade_submission Examples.prints_3 "print(3)" "add" "ann" = inr r
    ∧ Result.score r = 1
    ∧ Result.error_details r
      = ["Test 2: Expected '4', got '3'"; "Test 3: Expected '10', got '3'"].
Proof.
  destruct (grade_submission Examples.prints_3 "print(3)" "add" "ann")
    as [e|r] eqn:Hr; [by vm_compute in Hr|].
  exists r. split; [done|].
  destruct (grading_is_a_map_over_the_tests _ _ _ _ _ Hr)
    as (p & Hp & Hs & He & _).
  assert (Some p = Some Examples.add) as [= ->] by (by rewrite <- Hp).
  rewrite Hs, He. by vm_compute.
Defined.

End loop_view.

(** ** The comparator as a relation on outputs *)

Section comparator_relation.
Import PyStr Grader.

Lemma drop_leading_app l1 l2 :
  CompareSpec.drop_leading (l1 ++ l2)
  = match CompareSpec.drop_leading l1 with
    | [] => CompareSpec.drop_leading l2
    | m => m ++ l2
    end.
Proof.
  induction l1 as [|c l1 IH]; simpl; [by destruct (CompareSpec.drop_leading l2)|].
  by destruct (isspace c).
Qed.

Lemma drop_leading_space l : CompareSpec.drop_leading (" "%char :: l)
                             = CompareSpec.drop_leading l.
Proof. reflexivity. Qed.

Lemma remove_spaces_app l1 l2 :
  CompareSpec.remove_spaces (l1 ++ l2)
  = CompareSpec.remove_spaces l1 ++ CompareSpec.remove_spaces l2.
Proof. apply filter_app. Qed.

Lemma remove_spaces_reverse l :
  CompareSpec.remove_spaces (reverse l) = reverse (CompareSpec.remove_spaces l).
Proof. apply filter_reverse. Qed.

Lemma remove_spaces_space l :
  CompareSpec.remove_spaces (" "%char :: l) = CompareSpec.remove_spaces l.
Proof. unfold CompareSpec.remove_spaces. by rewrite filter_cons_False by (intros H; by apply H). Qed.

Lemma reverse_middle {A} (l1 l2 : list A) x :
  reverse (l1 ++ x :: l2) = reverse l2 ++ x :: reverse l1.
Proof. by rewrite reverse_app, reverse_cons, <- app_assoc. Qed.

(** One more space anywhere leaves the normal form as it is. *)
Lemma normalize_space l1 l2 :
  CompareSpec.remove_spaces (CompareSpec.trim (l1 ++ " "%char :: l2))
  = CompareSpec.remove_spaces (CompareSpec.trim (l1 ++ l2)).
Proof.
  unfold CompareSpec.trim. rewrite !drop_leading_app, drop_leading_space.
  destruct (CompareSpec.drop_leading l1) as [|c m] eqn:Hl1; [done|].
  rewrite reverse_middle, (reverse_app (c :: m) l2), !drop_leading_app.
  destruct (CompareSpec.drop_leading (reverse l2)) as [|c' m'] eqn:Hl2.
  - by rewrite drop_leading_space.
  - rewrite reverse_middle, reverse_app, reverse_involutive.
    rewrite !remove_spaces_app, remove_spaces_space. done.
Qed.

Lemma chars_app s1 s2 :
  list_ascii_of_string (s1 +:+ s2)
  = list_ascii_of_string s1 ++ list_ascii_of_string s2.
Proof. induction s1 as [|c s1 IH]; simpl; [done|]. by rewrite IH. Qed.

(** X2. The comparison is an equivalence on outputs: every output matches
    itself, matching is symmetric, and two outputs that match a third one
    match each other. *)
Theorem compare_is_an_equivalence :
  (∀ a, compare a a = true)
  ∧ (∀ a b, compare a b = compare b a)
  ∧ (∀ a b c, compare a b = true → compare b c = true → compare a c = true).
Proof.
  split_and!.
  - intros a. by apply compare_true_iff.
  - intros a b. destruct (compare a b) eqn:Hab, (compare b a) eqn:Hba; try done.
    + apply compare_true_iff in Hab. symmetry in Hab.
      apply compare_true_iff in Hab. congruence.
    + apply compare_true_iff in Hba. symmetry in Hba.
      apply compare_true_iff in Hba. congruence.
  - intros a b c Hab%compare_true_iff Hbc%compare_true_iff.
    apply compare_true_iff. congruence.
Qed.

(** X3. A space added anywhere in the actual or in the expected output
    never changes the result of the comparison. *)
Theorem compare_ignores_spaces s1 s2 other :
  compare (s1 +:+ " " +:+ s2) other = compare (s1 +:+ s2) other
  ∧ compare other (s1 +:+ " " +:+ s2) = compare other (s1 +:+ s2).
Proof.
  assert (CompareSpec.normalize (s1 +:+ " " +:+ s2)
          = CompareSpec.normalize (s1 +:+ s2)) as Hn.
  { unfold CompareSpec.normalize. rewrite !chars_app. simpl.
    apply normalize_space. }
  split.
  - destruct (compare (s1 +:+ s2) other) eqn:H.
    + apply compare_true_iff. rewrite Hn. by apply compare_true_iff.
    + destruct (compare (s1 +:+ " " +:+ s2) _) eqn:H'; [|done].
      apply compare_true_iff in H'. rewrite Hn in H'.
      apply compare_true_iff in H'. congruence.
  - destruct (compare other (s1 +:+ s2)) eqn:H.
    + apply compare_true_iff. rewrite Hn. by apply compare_true_iff.
    + destruct (compare _ (s1 +:+ " " +:+ s2)) eqn:H'; [|done].
      apply compare_true_iff in H'. rewrite Hn in H'.
      apply compare_true_iff in H'. congruence.
Qed.

End comparator_relation.

(** ** Recording: what the store keeps over time *)

Section record_more.
Import Grader Server LeaderboardSpec Views.

Implicit Types (subs : list Entry.t) (entry existing : Entry.t).

(** Where the search finds the pair of the new entry after the update. *)
Lemma list_find_update entry subs :
  list_find (same_pair (Entry.user_id entry) (Entry.problem_id entry))
            (update_leaderboard entry subs)
  = match list_find (same_pair (Entry.user_id entry) (Entry.problem_id entry))
                    subs with
    | Some (i, x) =>
        if Entry.score x <? Entry.score entry then Some (i, entry)
        else Some (i, x)
    | None => Some (length subs, entry)
    end.
Proof.
  unfold update_leaderboard.
  set (P := same_pair (Entry.user_id entry) (Entry.problem_id entry)).
  assert (P entry) as HP by done.
  destruct (list_find P subs) as [[i x]|] eqn:Hfind.
  - destruct (_ <? _); [|done].
    apply list_find_Some in Hfind as (Hi & Hx & Hleast).
    apply list_find_Some. split_and!; [|done|].
    + apply list_lookup_insert_eq. by eapply lookup_lt_Some.
    + intros j y Hj Hlt. rewrite list_lookup_insert_ne in Hj by lia. eauto.
  - rewrite list_find_app_r by done. simpl.
    rewrite decide_True by done. done.
Qed.

(** The entries of the other pairs are found where they were. *)
Lemma list_find_update_other entry subs user problem :
  (user, problem) ≠ pair_of entry →
  list_find (same_pair user problem) (update_leaderboard entry subs)
  = list_find (same_pair user problem) subs.
Proof.
  intros Hne. unfold update_leaderboard.
  set (P := same_pair user problem).
  assert (¬ P entry) as HPe.
  { intros HP%same_pair_pair_of. by destruct Hne. }
  destruct (list_find _ subs) as [[i x]|] eqn:Hfind.
  - destruct (_ <? _); [|done].
    apply list_find_Some in Hfind as (Hi & Hx%same_pair_pair_of & _).
    assert (¬ P x) as HPx.
    { intros HP%same_pair_pair_of. apply Hne.
      unfold pair_of in *. congruence. }
    destruct (list_find P subs) as [[j y]|] eqn:HfindP.
    + apply list_find_Some in HfindP as (Hj & Hy & Hleast).
      assert (i ≠ j) by (intros ->; congruence).
      apply list_find_Some. split_and!; [|done|].
      * by rewrite list_lookup_insert_ne.
      * intros k z Hk Hlt. destruct (decide (i = k)) as [->|].
        -- rewrite list_lookup_insert_eq in Hk by (by eapply lookup_lt_Some).
           by injection Hk as <-.
        -- rewrite list_lookup_insert_ne in Hk by done. eauto.
    + apply list_find_None. apply list_find_None in HfindP.
      apply Forall_insert; done.
  - destruct (list_find P subs) as [[j y]|] eqn:HfindP.
    + by apply list_find_app_l.
    + rewrite list_find_app_r by done. simpl. by rewrite decide_False.
Qed.

Lemma retained_update_other entry subs user problem :
  (user, problem) ≠ pair_of entry →
  retained user problem (update_leaderboard entry subs)
  = retained user problem subs.
Proof. intros H. unfold retained. by rewrite list_find_update_other. Qed.

Lemma retained_update_keep entry subs :
  retained (Entry.user_id entry) (Entry.problem_id entry)
    (update_leaderboard entry subs)
  = keep_best (retained (Entry.user_id entry) (Entry.problem_id entry) subs)
      entry.
Proof.
  rewrite retained_update. unfold keep_best.
  by destruct (retained _ _ subs).
Qed.

Lemma length_update entry subs :
  length (update_leaderboard entry subs)
  = match retained (Entry.user_id entry) (Entry.problem_id entry) subs with
    | Some _ => length subs
    | None => S (length subs)
    end.
Proof.
  unfold update_leaderboard, retained.
  destruct (list_find _ subs) as [[i x]|]; simpl.
  - destruct (_ <? _); [apply length_insert|done].
  - rewrite length_app. simpl. lia.
Qed.

(** X4. Recording an entry touches one pair only: the entry kept for any
    other (user, problem) is the one kept before; and the store never
    shrinks, it grows by one exactly when the pair had no entry. *)
Theorem record_touches_one_pair entry subs :
  (∀ user problem,
     (user, problem) ≠ pair_of entry →
     retained user problem (update_leaderboard entry subs)
     = retained user problem subs)
  ∧ length (update_leaderboard entry subs)
    = match retained (Entry.user_id entry) (Entry.problem_id entry) subs with
      | Some _ => length subs
      | None => S (length subs)
      end.
Proof.
  split; [|apply length_update].
  intros user problem. apply retained_update_other.
Qed.

(** X5. Recording the same entry twice is recording it once. *)
Theorem record_is_idempotent entry subs :
  update_leaderboard entry (update_leaderboard entry subs)
  = update_leaderboard entry subs.
Proof.
  unfold update_leaderboard at 1. rewrite list_find_update.
  destruct (list_find _ subs) as [[i x]|].
  - destruct (Entry.score x <? Entry.score entry) eqn:Hlt.
    + by rewrite Z.ltb_irrefl.
    + by rewrite Hlt.
  - by rewrite Z.ltb_irrefl.
Qed.

Lemma record_all_retained entries : ∀ subs user problem,
  retained user problem (record_all entries subs)
  = foldl keep_best (retained user problem subs)
      (filter (same_pair user problem) entries).
Proof.
  induction entries as [|e entries IH]; intros subs user problem; [done|].
  unfold record_all in *. simpl. rewrite IH.
  destruct (decide (same_pair user problem e)) as [HP|HP].
  - rewrite filter_cons_True by done. simpl.
    destruct HP as [<- <-]. by rewrite retained_update_keep.
  - rewrite filter_cons_False by done.
    rewrite retained_update_other; [done|].
    intros Heq. apply HP. by apply same_pair_pair_of.
Qed.

(** The best of a list and of what comes after it. *)
Lemma keep_best_spec entries : ∀ best,
  match foldl keep_best best entries with
  | None => best = None ∧ entries = []
  | Some b =>
      (best = Some b ∨ b ∈ entries)
      ∧ (∀ b0, best = Some b0 → Entry.score b0 ≤ Entry.score b)
      ∧ Forall (λ e, Entry.score e ≤ Entry.score b) entries
  end.
Proof.
  induction entries as [|e entries IH]; intros best; simpl.
  - destruct best as [b|]; [|done]. split_and!; [by left| |done].
    by intros b0 [= ->].
  - specialize (IH (keep_best best e)).
    destruct (foldl keep_best (keep_best best e) entries) as [b|].
    + destruct IH as (Hin & Hbest & Hall). unfold keep_best in *.
      destruct best as [b0|].
      * destruct (Z.ltb_spec (Entry.score b0) (Entry.score e)).
        -- specialize (Hbest e eq_refl). split_and!.
           ++ right. destruct Hin as [[= ->]|?]; set_solver.
           ++ intros ? [= <-]. lia.
           ++ by constructor.
        -- specialize (Hbest b0 eq_refl). split_and!.
           ++ destruct Hin as [?|?]; [by left|right; set_solver].
           ++ by intros ? [= <-].
           ++ constructor; [lia|done].
      * specialize (Hbest e eq_refl). split_and!; [|done|by constructor].
        right. destruct Hin as [[= ->]|?]; set_solver.
    + destruct IH as [Hk _]. unfold keep_best in Hk. destruct best as [b0|].
      * by destruct (_ <? _).
      * done.
Qed.

(** X6. After any sequence of recordings into an empty store, what the
    store keeps for a (user, problem) is the best of the entries recorded
    for that pair: one of them, with a score that none of them exceeds;
    and nothing is kept for a pair that recorded nothing. *)
Theorem store_keeps_the_best entries user problem :
  retained user problem (record_all entries [])
  = best_of (filter (same_pair user problem) entries)
  ∧ match retained user problem (record_all entries []) with
    | Some b =>
        b ∈ entries ∧ same_pair user problem b
        ∧ ∀ e, e ∈ entries → same_pair user problem e →
               Entry.score e ≤ Entry.score b
    | None => ∀ e, e ∈ entries → ¬ same_pair user problem e
    end.
Proof.
  pose proof (record_all_retained entries [] user problem) as Hr.
  change (retained user problem []) with (@None Entry.t) in Hr.
  split; [exact Hr|]. rewrite Hr.
  pose proof (keep_best_spec (filter (same_pair user problem) entries) None)
    as Hspec.
  destruct (foldl keep_best None _) as [b|].
  - destruct Hspec as ([?|Hin] & _ & Hall); [done|].
    apply list_elem_of_filter in Hin as [HP Hin]. split_and!; [done..|].
    intros e He HPe. rewrite Forall_forall in Hall. apply Hall.
    by apply list_elem_of_filter.
  - destruct Hspec as [_ Hnil]. intros e He HPe.
    assert (e ∈ filter (same_pair user problem) entries) as Hin
      by (by apply list_elem_of_filter).
    rewrite Hnil in Hin. by apply elem_of_nil in Hin.
Qed.

End record_more.

(** ** Ranking: what the leaderboard shows *)

Section ranking_more.
Import Grader Server LeaderboardSpec Views.

Implicit Types (subs : list Entry.t) (seen : gset string).

Lemma StronglySorted_lookup {A} (R : relation A) l i j x y :
  StronglySorted R l → l !! i = Some x → l !! j = Some y → (i < j)%nat → R x y.
Proof.
  intros Hs. revert i j. induction Hs as [|z l Hs IH Hz]; intros i j; [done|].
  destruct i as [|i], j as [|j]; simpl; try lia.
  - intros [= ->] Hj _. rewrite Forall_forall in Hz.
    apply Hz. by eapply list_elem_of_lookup_2.
  - intros Hi Hj Hlt. apply (IH i j); [done..|lia].
Qed.

(** *** The groups *)

Lemma problems_seen_snoc subs e :
  problems_seen (subs ++ [e])
  = if decide (Entry.problem_id e ∈ problems_seen subs) then problems_seen subs
    else problems_seen subs ++ [Entry.problem_id e].
Proof. unfold problems_seen. by rewrite foldl_app. Qed.

Lemma problems_seen_spec subs :
  NoDup (problems_seen subs)
  ∧ ∀ k, k ∈ problems_seen subs ↔ ∃ e, e ∈ subs ∧ Entry.problem_id e = k.
Proof.
  induction subs as [|e subs [Hnd Hin]] using rev_ind.
  - split; [constructor|]. intros k. split; [by intros ?%elem_of_nil|].
    by intros (e & ?%elem_of_nil & _).
  - rewrite problems_seen_snoc.
    assert (∀ k, (∃ e', e' ∈ subs ++ [e] ∧ Entry.problem_id e' = k)
                 ↔ k ∈ problems_seen subs ∨ k = Entry.problem_id e) as Hsnoc.
    { intros k. rewrite Hin. split.
      - intros (e' & He' & <-). apply elem_of_app in He' as [?|He'].
        + left. by exists e'.
        + apply list_elem_of_singleton in He' as ->. by right.
      - intros [(e' & ? & ?)|Hk].
        + exists e'. split; [|done]. apply elem_of_app. by left.
        + exists e. split; [|done]. apply elem_of_app. right.
          by apply list_elem_of_singleton. }
    destruct (decide (Entry.problem_id e ∈ problems_seen subs)) as [Hk|Hk].
    + split; [done|]. intros k. rewrite Hsnoc. split; [by left|].
      by intros [?| ->].
    + split.
      * apply NoDup_app. split_and!; [done| |apply NoDup_singleton].
        intros k ? Hk'%list_elem_of_singleton. by subst k.
      * intros k. by rewrite Hsnoc, elem_of_app, list_elem_of_singleton.
Qed.

Lemma dict_append_fmap pid e (F : string → list Entry.t) ks :
  NoDup ks →
  dict_append pid e ((λ k, (k, F k)) <$> ks)
  = ((λ k, (k, if decide (k = pid) then F k ++ [e] else F k)) <$> ks)
    ++ (if decide (pid ∈ ks) then [] else [(pid, [e])]).
Proof.
  induction 1 as [|k ks Hk Hnd IH]; [done|].
  rewrite !fmap_cons. cbn [dict_append].
  destruct (decide (k = pid)) as [->|Hne].
  - rewrite decide_True by (by left). rewrite app_nil_r. f_equal.
    apply list_fmap_ext. intros i k' Hk'.
    rewrite decide_False; [done|]. intros ->.
    apply Hk. by eapply list_elem_of_lookup_2.
  - rewrite IH. f_equal. f_equal.
    destruct (decide (pid ∈ ks)).
    + rewrite decide_True by (by right). done.
    + rewrite decide_False; [done|].
      by intros [?|?]%elem_of_cons.
Qed.

Lemma group_by_problem_snoc subs e :
  group_by_problem (subs ++ [e])
  = dict_append (Entry.problem_id e) e (group_by_problem subs).
Proof. unfold group_by_problem. by rewrite foldl_app. Qed.

Lemma group_by_problem_spec subs :
  group_by_problem subs
  = (λ k, (k, filter (of_problem k) subs)) <$> problems_seen subs.
Proof.
  induction subs as [|e subs IH] using rev_ind; [done|].
  destruct (problems_seen_spec subs) as [Hnd Hin].
  rewrite group_by_problem_snoc, IH, dict_append_fmap by done.
  rewrite problems_seen_snoc.
  assert (∀ k, filter (of_problem k) (subs ++ [e])
               = if decide (k = Entry.problem_id e)
                 then filter (of_problem k) subs ++ [e]
                 else filter (of_problem k) subs) as Hf.
  { intros k. rewrite filter_app. destruct (decide _) as [->|Hne].
    - by rewrite filter_cons_True by done.
    - rewrite filter_cons_False by (intros H; by apply Hne).
      by rewrite app_nil_r. }
  destruct (decide (Entry.problem_id e ∈ problems_seen subs)) as [Hk|Hk].
  - rewrite app_nil_r. apply list_fmap_ext. intros i k _. by rewrite Hf.
  - rewrite fmap_app. f_equal.
    + apply list_fmap_ext. intros i k _. by rewrite Hf.
    + simpl. rewrite Hf, decide_True by done. do 2 f_equal.
      assert (filter (of_problem (Entry.problem_id e)) subs = []) as ->; [|done].
      destruct (filter _ subs) as [|e' l] eqn:Hfl; [done|].
      assert (e' ∈ filter (of_problem (Entry.problem_id e)) subs) as He'
        by (rewrite Hfl; left).
      apply list_elem_of_filter in He' as [Hp He']. destruct Hk.
      apply Hin. by exists e'.
Qed.

(** X7. Grouping by problem loses and invents nothing: the groups are the
    problems that have an entry, each once, in the order of their first
    entry, and the group of a problem holds exactly its entries, in stored
    order. *)
Theorem groups_partition_the_store subs :
  group_by_problem subs
  = (λ k, (k, filter (of_problem k) subs)) <$> problems_seen subs
  ∧ NoDup (problems_seen subs)
  ∧ (∀ k, k ∈ problems_seen subs ↔ ∃ e, e ∈ subs ∧ Entry.problem_id e = k)
  ∧ (∀ e, e ∈ subs ↔
       ∃ kv, kv ∈ group_by_problem subs ∧ e ∈ kv.2
             ∧ kv.1 = Entry.problem_id e).
Proof.
  destruct (problems_seen_spec subs) as [Hnd Hin].
  split_and!; [apply group_by_problem_spec|done..|].
  intros e. rewrite group_by_problem_spec. split.
  - intros He. exists (Entry.problem_id e, filter (of_problem (Entry.problem_id e)) subs).
    split_and!; [|by apply list_elem_of_filter|done].
    apply list_elem_of_fmap. eexists. split; [done|]. apply Hin. eauto.
  - intros ([k v] & (k' & [= -> ->] & _)%list_elem_of_fmap & Hv & _).
    simpl in Hv. by apply list_elem_of_filter in Hv as [_ ?].
Qed.

(** *** One row for each user of a group *)

Lemma best_per_user_sound k l : ∀ seen row,
  row ∈ best_per_user k l seen →
  ∃ i e, l !! i = Some e ∧ row = row_of k e
    ∧ (Entry.user_id e ∉ seen)
    ∧ ∀ j e', (j < i)%nat → l !! j = Some e' →
              Entry.user_id e' ≠ Entry.user_id e.
Proof.
  induction l as [|e0 l IH]; intros seen row; simpl.
  - by intros ?%elem_of_nil.
  - destruct (decide (Entry.user_id e0 ∈ seen)) as [Hs|Hs].
    + intros (i & e & Hi & -> & Hns & Hfirst)%IH.
      exists (S i), e. split_and!; [done..|].
      intros [|j] e' Hj; simpl.
      * intros [= ->] Heq. apply Hns. by rewrite <- Heq.
      * intros Hj'. apply (Hfirst j); [lia|done].
    + intros [->|Hrow]%elem_of_cons.
      * exists 0%nat, e0. split_and!; [done..|]. intros; lia.
      * apply IH in Hrow as (i & e & Hi & -> & Hns & Hfirst).
        exists (S i), e. split_and!; [done|done| |].
        { intros ?. apply Hns, elem_of_union. by right. }
        intros [|j] e' Hj; simpl.
        -- intros [= ->] Heq. apply Hns. rewrite <- Heq.
           apply elem_of_union. left. by apply elem_of_singleton.
        -- intros Hj'. apply (Hfirst j); [lia|done].
Qed.

Lemma best_per_user_complete k l : ∀ seen e,
  e ∈ l → Entry.user_id e ∉ seen →
  ∃ row, row ∈ best_per_user k l seen ∧ Row.user_id row = Entry.user_id e.
Proof.
  induction l as [|e0 l IH]; intros seen e; simpl.
  - by intros ?%elem_of_nil.
  - intros [->|He]%elem_of_cons Hns.
    + rewrite decide_False by done. eexists. split; [left|done].
    + destruct (decide (Entry.user_id e0 ∈ seen)) as [Hs|Hs]; [by apply IH|].
      destruct (decide (Entry.user_id e = Entry.user_id e0)) as [Heq|Hne].
      * eexists. split; [left|]. by rewrite Heq.
      * destruct (IH ({[Entry.user_id e0]} ∪ seen) e He) as (row & ? & ?).
        { intros [Hin|?]%elem_of_union; [|done].
          by apply elem_of_singleton in Hin. }
        exists row. split; [by right|done].
Qed.

Lemma best_per_user_users k l : ∀ seen,
  NoDup (Row.user_id <$> best_per_user k l seen)
  ∧ ∀ row, row ∈ best_per_user k l seen → Row.user_id row ∉ seen.
Proof.
  induction l as [|e0 l IH]; intros seen; simpl.
  - split; [constructor|]. by intros row ?%elem_of_nil.
  - destruct (decide (Entry.user_id e0 ∈ seen)) as [Hs|Hs]; [apply IH|].
    destruct (IH ({[Entry.user_id e0]} ∪ seen)) as [Hnd Hns].
    split.
    + rewrite fmap_cons. constructor; [|done]. simpl.
      intros (row & Hu & Hrow%Hns)%list_elem_of_fmap. apply Hrow.
      rewrite <- Hu. apply elem_of_union. left. by apply elem_of_singleton.
    + intros row [->|Hrow%Hns]%elem_of_cons; [done|].
      intros ?. apply Hrow, elem_of_union. by right.
Qed.

Lemma unsorted_leaderboard_spec subs :
  unsorted_leaderboard subs = mjoin (group_rows subs <$> problems_seen subs).
Proof.
  unfold unsorted_leaderboard. rewrite group_by_problem_spec.
  by rewrite <- list_fmap_compose.
Qed.

Lemma get_leaderboard_unsorted subs :
  get_leaderboard subs ≡ₚ unsorted_leaderboard subs.
Proof. destruct subs; [done|]. apply sorted_perm. Qed.

Lemma elem_of_get_leaderboard subs row :
  row ∈ get_leaderboard subs ↔
  ∃ k, k ∈ problems_seen subs ∧ row ∈ group_rows subs k.
Proof.
  rewrite get_leaderboard_unsorted, unsorted_leaderboard_spec.
  rewrite list_elem_of_join. split.
  - intros (l & Hrow & (k & -> & Hk)%list_elem_of_fmap). eauto.
  - intros (k & Hk & Hrow). exists (group_rows subs k). split; [done|].
    apply list_elem_of_fmap. eauto.
Qed.

Lemma key_le_refl a : key_le a a.
Proof. apply tuple_lt_irrefl. Qed.

(** The entry behind a row of a group, and why it is the best one. *)
Lemma group_rows_best subs k row :
  row ∈ group_rows subs k →
  ∃ e, e ∈ subs ∧ Entry.problem_id e = k ∧ row = row_of k e
    ∧ ∀ e', e' ∈ subs → pair_of e' = pair_of e →
            key_le (entry_key e) (entry_key e').
Proof.
  unfold group_rows. set (l := sorted entry_key _).
  intros (i & e & Hi & -> & _ & Hfirst)%best_per_user_sound.
  assert (∀ x, x ∈ l ↔ of_problem k x ∧ x ∈ subs) as Hl.
  { intros x. unfold l. rewrite sorted_perm. apply list_elem_of_filter. }
  assert (e ∈ l) as [Hk He]%Hl by (by eapply list_elem_of_lookup_2).
  exists e. split_and!; [done..|].
  intros e' He' [= Hu Hp].
  assert (e' ∈ l) as [j Hj]%list_elem_of_lookup_1.
  { apply Hl. split; [|done]. unfold of_problem in *. congruence. }
  destruct (Nat.lt_trichotomy j i) as [Hlt|[->|Hgt]].
  - by destruct (Hfirst j e' Hlt Hj).
  - assert (e' = e) as -> by congruence. apply key_le_refl.
  - apply (StronglySorted_lookup
             (λ x y, key_le (entry_key x) (entry_key y)) l i j e e');
      [apply (sorted_StronglySorted entry_key)|done..].
Qed.

Lemma key_le_entry e e' :
  key_le (entry_key e) (entry_key e') ↔
  Entry.score e' < Entry.score e
  ∨ Entry.score e' = Entry.score e
    ∧ (Entry.timestamp e ≤ Entry.timestamp e')%string.
Proof.
  rewrite key_le_iff. unfold entry_key. simpl.
  split; (intros [?|[? ?]]; [left; lia|right; split; [lia|done]]).
Qed.

Lemma leaderboard_row_entry subs row :
  row ∈ get_leaderboard subs →
  ∃ e, e ∈ subs ∧ row = row_of (Entry.problem_id e) e
    ∧ ∀ e', e' ∈ subs → pair_of e' = pair_of e →
            key_le (entry_key e) (entry_key e').
Proof.
  intros (k & _ & (e & He & <- & -> & Hbest)%group_rows_best)%elem_of_get_leaderboard.
  by exists e.
Qed.

(** X8. Every row of the leaderboard is an entry of the store, shown under
    its own problem, and it is the best entry of its user for that problem:
    no entry of the same user and problem has a greater score, and none
    with the same score has an earlier timestamp. *)
Theorem leaderboard_rows_are_best subs row :
  row ∈ get_leaderboard subs →
  ∃ e, e ∈ subs ∧ row = row_of (Entry.problem_id e) e
    ∧ ∀ e', e' ∈ subs → pair_of e' = pair_of e →
            Entry.score e' < Entry.score e
            ∨ Entry.score e' = Entry.score e
              ∧ (Entry.timestamp e ≤ Entry.timestamp e')%string.
Proof.
  intros (e & He & -> & Hbest)%leaderboard_row_entry.
  exists e. split_and!; [done..|].
  intros e' He' Hpair. apply key_le_entry. by apply Hbest.
Qed.

Lemma leaderboard_rows_are_best_witness :
  ∃ e, e ∈ Examples.ranking_example
    ∧ Examples.entry "s2" "u2" "p1" 5 Examples.t5 = e.
Proof.
  destruct (leaderboard_rows_are_best Examples.ranking_example
              (row_of "p1" (Examples.entry "s2" "u2" "p1" 5 Examples.t5)))
    as (e & He & Hrow & _).
  { vm_compute. left. }
  exists e. split; [done|].
  apply elem_of_cons in He as [->|He]; [by vm_compute in Hrow|].
  apply elem_of_cons in He as [->|He]; [done|].
  apply list_elem_of_singleton in He as ->. by vm_compute in Hrow.
Defined.

Lemma row_pair_inj k1 k2 e1 e2 :
  row_of k1 e1 = row_of k2 e2 →
  k1 = k2 ∧ Entry.user_id e1 = Entry.user_id e2.
Proof. by intros [= ? ? _ _ _]. Qed.

Lemma leaderboard_complete subs e :
  e ∈ subs →
  ∃ row, row ∈ get_leaderboard subs
    ∧ Row.user_id row = Entry.user_id e
    ∧ Row.problem_id row = Entry.problem_id e.
Proof.
  intros He.
  destruct (best_per_user_complete (Entry.problem_id e)
              (sorted entry_key
                 (filter (of_problem (Entry.problem_id e)) subs)) ∅ e)
    as (row & Hrow & Hu); [|apply not_elem_of_empty|].
  { rewrite sorted_perm. by apply list_elem_of_filter. }
  exists row. split_and!; [|done|].
  - apply elem_of_get_leaderboard. exists (Entry.problem_id e).
    split; [|done]. apply problems_seen_spec. eauto.
  - by apply best_per_user_sound in Hrow as (? & ? & _ & -> & _).
Qed.

Lemma leaderboard_pairs_NoDup subs :
  NoDup ((λ row, (Row.user_id row, Row.problem_id row)) <$> get_leaderboard subs).
Proof.
  rewrite get_leaderboard_unsorted, unsorted_leaderboard_spec.
  destruct (problems_seen_spec subs) as [Hnd _].
  induction Hnd as [|k ks Hk Hnd IH]; [constructor|].
  rewrite fmap_cons. simpl. rewrite fmap_app.
  apply NoDup_app. split_and!; [| |done].
  - destruct (best_per_user_users k
      (sorted entry_key (filter (of_problem k) subs)) ∅) as [Hu _].
    eapply (NoDup_fmap_1 fst). rewrite <- list_fmap_compose. exact Hu.
  - intros [u p] (row & [= -> ->] & Hrow)%list_elem_of_fmap
                 (row' & [= Hu' Hp'] & Hrow')%list_elem_of_fmap.
    apply best_per_user_sound in Hrow as (? & e & _ & -> & _).
    apply list_elem_of_join in Hrow' as (l & Hrow' & (k' & -> & Hk')%list_elem_of_fmap).
    apply best_per_user_sound in Hrow' as (? & e' & _ & -> & _).
    simpl in Hp'. by subst k'.
Qed.

(** X9. The leaderboard has exactly one row for every (user, problem) that
    has an entry in the store, and no other row. *)
Theorem one_row_per_user_and_problem subs :
  NoDup ((λ row, (Row.user_id row, Row.problem_id row)) <$> get_leaderboard subs)
  ∧ ∀ user problem,
      (∃ row, row ∈ get_leaderboard subs
              ∧ Row.user_id row = user ∧ Row.problem_id row = problem)
      ↔ ∃ e, e ∈ subs ∧ pair_of e = (user, problem).
Proof.
  split; [apply leaderboard_pairs_NoDup|].
  intros user problem. split.
  - intros (row & (e & He & -> & _)%leaderboard_row_entry & <- & <-).
    by exists e.
  - intros (e & He & [= <- <-]). by apply leaderboard_complete.
Qed.

Lemma unique_pairs_inj subs e1 e2 :
  unique_pairs subs → e1 ∈ subs → e2 ∈ subs → pair_of e1 = pair_of e2 → e1 = e2.
Proof.
  intros Hnd [i Hi]%list_elem_of_lookup_1 [j Hj]%list_elem_of_lookup_1 Heq.
  assert (i = j) as ->; [|congruence].
  eapply (NoDup_lookup _ i j (pair_of e1) Hnd); rewrite list_lookup_fmap.
  - by rewrite Hi.
  - rewrite Hj. simpl. by rewrite Heq.
Qed.

(** X10. On a store with at most one entry for each (user, problem), the
    leaderboard drops nothing: its rows are the entries of the store, each
    shown once. *)
Theorem unique_store_is_shown_whole subs :
  unique_pairs subs →
  get_leaderboard subs ≡ₚ (λ e, row_of (Entry.problem_id e) e) <$> subs
  ∧ length (get_leaderboard subs) = length subs.
Proof.
  intros Hnd.
  assert (get_leaderboard subs
          ≡ₚ (λ e, row_of (Entry.problem_id e) e) <$> subs) as Hperm.
  { apply NoDup_Permutation.
    - eapply NoDup_fmap_1, leaderboard_pairs_NoDup.
    - eapply (NoDup_fmap_1 (λ row, (Row.user_id row, Row.problem_id row))).
      rewrite <- list_fmap_compose. exact Hnd.
    - intros row. rewrite list_elem_of_fmap. split.
      + intros (e & He & -> & _)%leaderboard_row_entry. eauto.
      + intros (e & -> & He).
        destruct (leaderboard_complete subs e He) as (row & Hrow & Hu & Hp).
        pose proof Hrow as (e' & He' & -> & _)%leaderboard_row_entry.
        assert (e' = e) as ->; [|done].
        apply (unique_pairs_inj subs); [done..|].
        unfold pair_of. simpl in Hu, Hp. congruence. }
  split; [done|]. by rewrite Hperm, length_fmap.
Qed.

Lemma unique_store_is_shown_whole_witness :
  length (get_leaderboard Examples.ranking_example) = 3%nat.
Proof.
  apply (unique_store_is_shown_whole Examples.ranking_example).
  unfold unique_pairs. vm_compute.
  repeat (constructor; [rewrite ?elem_of_cons, elem_of_nil; intros H;
                        repeat destruct H as [H|H]; done|]).
  constructor.
Defined.

Lemma retained_Some user problem subs x :
  retained user problem subs = Some x → x ∈ subs ∧ same_pair user problem x.
Proof.
  unfold retained. destruct (list_find _ subs) as [[i y]|] eqn:Hf; [|done].
  intros [= <-]. apply list_find_Some in Hf as (Hi & HP & _).
  split; [by eapply list_elem_of_lookup_2|done].
Qed.

(** X11. After a submission that is answered with a grade, the leaderboard
    has a row for the submitter and the problem, and the score of that row
    is at least the score of the grade. *)
Theorem graded_submission_is_ranked env now subs sub grade entry subs' :
  submit_code env now subs sub = (Returned grade entry, subs') →
  ∃ row, row ∈ get_leaderboard subs'
    ∧ Row.user_id row = Submission.user_id sub
    ∧ Row.problem_id row = Submission.problem_id sub
    ∧ Grade.score grade ≤ Row.score row.
Proof.
  intros Hs.
  destruct (submit_code_cases env now subs sub) as [H404|Hpres];
    [congruence|].
  destruct (grade_submission _ _ _ _) as [e|r]; [congruence|].
  destruct Hpres as (entry' & Hs' & Hu & Hpid & Hscore & _).
  rewrite Hs in Hs'. injection Hs' as -> -> ->. simpl.
  pose proof (retained_update_keep entry' subs) as Hk.
  destruct (retained _ _ (update_leaderboard entry' subs)) as [b|] eqn:Hb.
  2:{ unfold keep_best in Hk. destruct (retained _ _ subs); [|done].
      by destruct (_ <? _). }
  assert (Entry.score entry' ≤ Entry.score b) as Hle.
  { unfold keep_best in Hk. destruct (retained _ _ subs) as [b0|].
    - destruct (Z.ltb_spec (Entry.score b0) (Entry.score entry'));
        injection Hk as ->; lia.
    - injection Hk as ->. lia. }
  apply retained_Some in Hb as [Hin [Hbu Hbp]].
  destruct (leaderboard_complete _ b Hin) as (row & Hrow & Hru & Hrp).
  exists row. split_and!; [done|congruence|congruence|].
  pose proof Hrow as (e & He & -> & Hbest)%leaderboard_row_entry.
  simpl in *. specialize (Hbest b Hin).
  rewrite key_le_entry in Hbest. rewrite <- Hscore.
  destruct Hbest as [?|[? _]]; [|lia|lia].
  unfold pair_of. congruence.
Qed.

Lemma graded_submission_is_ranked_witness :
  ∃ row, row ∈ get_leaderboard
                 (submit_code Examples.prints_3 Examples.t5 []
                    (Examples.request "ann" "add")).2
    ∧ Row.user_id row = "ann" ∧ 1 ≤ Row.score row.
Proof.
  destruct (submit_code Examples.prints_3 Examples.t5 []
              (Examples.request "ann" "add")) as [resp subs'] eqn:Hs.
  destruct resp as [status detail|grade entry]; [by vm_compute in Hs|].
  destruct (graded_submission_is_ranked _ _ _ _ _ _ _ Hs)
    as (row & Hrow & Hu & _ & Hscore).
  exists row. split_and!; [done..|].
  vm_compute in Hs. injection Hs as <- _ _. exact Hscore.
Defined.

(** X12. [submit_code] and the store: an error answer leaves the store as
    it is; an answer with a grade records the entry of the answer, made for
    the submitter and the problem with the score of the grade and the time
    of the request. In both cases a store without duplicate pairs stays
    so, and the store grows by at most one entry. *)
Theorem submit_code_and_the_store env now subs sub :
  let answer := (submit_code env now subs sub).1 in
  let subs' := (submit_code env now subs sub).2 in
  (unique_pairs subs → unique_pairs subs')
  ∧ (length subs ≤ length subs' ≤ S (length subs))%nat
  ∧ match answer with
    | HTTPException status detail =>
        subs' = subs ∧ (status = 404 ∨ status = 500)
    | Returned grade entry =>
        subs' = update_leaderboard entry subs
        ∧ pair_of entry
          = (Submission.user_id sub, Submission.problem_id sub)
        ∧ Entry.score entry = Grade.score grade
        ∧ Entry.timestamp entry = now
        ∧ 0 ≤ Grade.score grade ≤ Grade.total grade
    end.
Proof.
  intros answer subs'. unfold answer, subs'.
  destruct (submit_code_cases env now subs sub) as [H404|Hpres].
  { rewrite H404. simpl. split_and!; auto; lia. }
  destruct (grade_submission _ _ _ _) as [e|r] eqn:Hg.
  { rewrite Hpres. simpl. split_and!; auto; lia. }
  destruct Hpres as (entry & -> & Hu & Hpid & Hscore & Hnow & _). simpl.
  assert (0 ≤ Result.score r ≤ Result.total r) as Hb.
  { apply grade_submission_inr in Hg as (p' & a & _ & Ha & -> & -> & _).
    by apply run_all_bounds in Ha as [? _]. }
  pose proof (length_update entry subs) as Hlen.
  split; [apply unique_pairs_update|]. split.
  { rewrite Hlen. destruct (retained _ _ subs); lia. }
  split; [done|]. split; [unfold pair_of; congruence|]. done.
Qed.

End ranking_more.

(** ** server.py: problem details and trial runs *)

Section endpoints.
Import PyStr Grader Server Endpoints.




End endpoints.

(** ** api/api_server.py *)

Section api_server.
Import PyStr Grader Server LeaderboardSpec Views.

Implicit Types (subs : list Entry.t) (entry existing : Entry.t).

Lemma filter_all {A} (P : A → Prop) `{∀ x, Decision (P x)} (l : list A) :
  Forall P l → filter P l = l.
Proof.
  induction 1 as [|x l Hx Hl IH]; [done|].
  by rewrite filter_cons_True, IH.
Qed.

Lemma filter_ne_delete subs : ∀ i x,
  NoDup subs → subs !! i = Some x →
  filter (λ s, s ≠ x) subs = delete i subs.
Proof.
  induction subs as [|y subs IH]; intros i x Hnd; [done|].
  apply NoDup_cons in Hnd as [Hy Hnd]. destruct i as [|i]; simpl.
  - intros [= ->]. rewrite filter_cons_False by (intros H; by apply H).
    apply filter_all, Forall_forall. by intros z Hz ->.
  - intros Hi. rewrite filter_cons_True.
    + by rewrite (IH i x).
    + intros ->. apply Hy. by eapply list_elem_of_lookup_2.
Qed.

Lemma insert_delete_perm subs i x entry :
  subs !! i = Some x → <[i:=entry]> subs ≡ₚ delete i subs ++ [entry].
Proof.
  intros Hi. rewrite insert_take_drop by (by eapply lookup_lt_Some).
  rewrite delete_take_drop, <- app_assoc.
  apply Permutation_app_head. rewrite <- Permutation_cons_append. done.
Qed.

(** X18. On a store with at most one entry for each (user, problem), the
    update of [api_server.py] keeps the same entries as the update of
    [server.py]; only their order may differ (a replaced entry moves to the
    end). It keeps the store free of duplicate pairs as well. *)
Theorem api_update_keeps_the_same_entries entry subs :
  unique_pairs subs →
  ApiServer.update_leaderboard entry subs ≡ₚ update_leaderboard entry subs
  ∧ unique_pairs (ApiServer.update_leaderboard entry subs)
  ∧ length (ApiServer.update_leaderboard entry subs)
    = length (update_leaderboard entry subs).
Proof.
  intros Hnd.
  assert (ApiServer.update_leaderboard entry subs
          ≡ₚ update_leaderboard entry subs) as Hperm.
  { unfold ApiServer.update_leaderboard, update_leaderboard.
    destruct (list_find _ subs) as [[i x]|] eqn:Hf; [|done].
    destruct (_ <? _); [|done].
    apply list_find_Some in Hf as (Hi & _ & _).
    rewrite (filter_ne_delete subs i x); [|by eapply NoDup_fmap_1|done].
    symmetry. by eapply insert_delete_perm. }
  split_and!; [done| |by rewrite Hperm].
  unfold unique_pairs. rewrite Hperm. by apply unique_pairs_update.
Qed.

Lemma api_update_keeps_the_same_entries_witness :
  ApiServer.update_leaderboard (Examples.entry "s9" "u1" "p1" 7 Examples.t10)
    Examples.ranking_example
  ≡ₚ update_leaderboard (Examples.entry "s9" "u1" "p1" 7 Examples.t10)
       Examples.ranking_example.
Proof.
  apply (api_update_keeps_the_same_entries
           (Examples.entry "s9" "u1" "p1" 7 Examples.t10)
           Examples.ranking_example).
  unfold unique_pairs. vm_compute.
  repeat (constructor; [rewrite ?elem_of_cons, elem_of_nil; intros H;
                        repeat destruct H as [H|H]; done|]).
  constructor.
Defined.


(** *** The leaderboard of [api_server.py] *)

Import ApiViews.

Lemma first_per_user_unseen l : ∀ seen row,
  row ∈ ApiServer.first_per_user l seen → ApiServer.Row.user_id row ∉ seen.
Proof.
  induction l as [|e0 l IH]; intros seen row; simpl.
  - by intros ?%elem_of_nil.
  - destruct (decide (Entry.user_id e0 ∈ seen)) as [Hs|Hs]; [apply IH|].
    intros [->|Hrow%IH]%elem_of_cons; [done|].
    intros ?. apply Hrow, elem_of_union. by right.
Qed.

Lemma first_per_user_sound l : ∀ seen row,
  row ∈ ApiServer.first_per_user l seen →
  ∃ i e, l !! i = Some e ∧ row = api_row e
    ∧ ∀ j e', (j < i)%nat → l !! j = Some e' →
              Entry.user_id e' ≠ Entry.user_id e.
Proof.
  induction l as [|e0 l IH]; intros seen row; simpl.
  - by intros ?%elem_of_nil.
  - destruct (decide (Entry.user_id e0 ∈ seen)) as [Hs|Hs].
    + intros Hrow. pose proof Hrow as (i & e & Hi & -> & Hfirst)%IH.
      exists (S i), e. split_and!; [done..|].
      intros [|j] e' Hj; simpl.
      * intros [= ->] Heq.
        apply (first_per_user_unseen l seen (api_row e)) in Hrow.
        simpl in Hrow. apply Hrow. by rewrite <- Heq.
      * intros Hj'. apply (Hfirst j); [lia|done].
    + intros [->|Hrow]%elem_of_cons.
      * exists 0%nat, e0. split_and!; [done..|]. intros; lia.
      * pose proof Hrow as (i & e & Hi & -> & Hfirst)%IH.
        exists (S i), e. split_and!; [done|done|].
        intros [|j] e' Hj; simpl.
        -- intros [= ->] Heq.
           apply (first_per_user_unseen l _ (api_row e)) in Hrow.
           simpl in Hrow. apply Hrow. rewrite <- Heq.
           apply elem_of_union. left. by apply elem_of_singleton.
        -- intros Hj'. apply (Hfirst j); [lia|done].
Qed.

Lemma first_per_user_complete l : ∀ seen e,
  e ∈ l → Entry.user_id e ∉ seen →
  ∃ row, row ∈ ApiServer.first_per_user l seen
         ∧ ApiServer.Row.user_id row = Entry.user_id e.
Proof.
  induction l as [|e0 l IH]; intros seen e; simpl.
  - by intros ?%elem_of_nil.
  - intros [->|He]%elem_of_cons Hns.
    + rewrite decide_False by done. eexists. split; [left|done].
    + destruct (decide (Entry.user_id e0 ∈ seen)) as [Hs|Hs]; [by apply IH|].
      destruct (decide (Entry.user_id e = Entry.user_id e0)) as [Heq|Hne].
      * eexists. split; [left|]. by rewrite Heq.
      * destruct (IH ({[Entry.user_id e0]} ∪ seen) e He) as (row & ? & ?).
        { intros [Hin|?]%elem_of_union; [|done].
          by apply elem_of_singleton in Hin. }
        exists row. split; [by right|done].
Qed.

Lemma first_per_user_users l : ∀ seen,
  NoDup (ApiServer.Row.user_id <$> ApiServer.first_per_user l seen).
Proof.
  induction l as [|e0 l IH]; intros seen; simpl; [constructor|].
  destruct (decide (Entry.user_id e0 ∈ seen)) as [Hs|Hs]; [apply IH|].
  rewrite fmap_cons. constructor; [|apply IH]. simpl.
  intros (row & Hu & Hrow)%list_elem_of_fmap.
  apply first_per_user_unseen in Hrow. apply Hrow. rewrite <- Hu.
  apply elem_of_union. left. by apply elem_of_singleton.
Qed.

Lemma api_ranks_key e1 e2 :
  key_le (entry_key e1) (entry_key e2) ↔
  api_ranks_before (api_row e1) (api_row e2).
Proof.
  rewrite key_le_iff. unfold entry_key, api_ranks_before. simpl.
  split; (intros [?|[? ?]]; [left; lia|right; split; [lia|done]]).
Qed.

Lemma first_per_user_sorted l : ∀ seen,
  StronglySorted (λ x y, key_le (entry_key x) (entry_key y)) l →
  StronglySorted api_ranks_before (ApiServer.first_per_user l seen).
Proof.
  induction l as [|e0 l IH]; intros seen Hs; simpl; [constructor|].
  apply StronglySorted_inv in Hs as [Hs Hall].
  destruct (decide (Entry.user_id e0 ∈ seen)); [by apply IH|].
  constructor; [by apply IH|].
  apply Forall_forall. intros row (i & e & Hi & -> & _)%first_per_user_sound.
  apply api_ranks_key. rewrite Forall_forall in Hall. apply Hall.
  by eapply list_elem_of_lookup_2.
Qed.

(** X20. The leaderboard of [api_server.py] has one row for each user that
    has an entry, whatever the problem: the row of the user's best entry
    over all problems (no entry of the user has a greater score, and none
    with the same score an earlier timestamp). The rows come by score,
    highest first, and by timestamp among equal scores. *)
Theorem api_leaderboard_is_per_user subs :
  NoDup (ApiServer.Row.user_id <$> ApiServer.get_leaderboard subs)
  ∧ (∀ user,
       (∃ row, row ∈ ApiServer.get_leaderboard subs
               ∧ ApiServer.Row.user_id row = user)
       ↔ ∃ e, e ∈ subs ∧ Entry.user_id e = user)
  ∧ (∀ row, row ∈ ApiServer.get_leaderboard subs →
       ∃ e, e ∈ subs ∧ row = api_row e
         ∧ ∀ e', e' ∈ subs → Entry.user_id e' = Entry.user_id e →
                 Entry.score e' < Entry.score e
                 ∨ Entry.score e' = Entry.score e
                   ∧ (Entry.timestamp e ≤ Entry.timestamp e')%string)
  ∧ StronglySorted api_ranks_before (ApiServer.get_leaderboard subs).
Proof.
  assert (ApiServer.get_leaderboard subs
          = ApiServer.first_per_user (sorted entry_key subs) ∅) as ->.
  { by destruct subs. }
  set (l := sorted entry_key subs).
  assert (∀ x, x ∈ l ↔ x ∈ subs) as Hl.
  { intros x. unfold l. by rewrite sorted_perm. }
  assert (∀ row, row ∈ ApiServer.first_per_user l ∅ →
            ∃ e, e ∈ subs ∧ row = api_row e
              ∧ ∀ e', e' ∈ subs → Entry.user_id e' = Entry.user_id e →
                      key_le (entry_key e) (entry_key e')) as Hbest.
  { intros row (i & e & Hi & -> & Hfirst)%first_per_user_sound.
    exists e. split_and!; [by eapply Hl, list_elem_of_lookup_2|done|].
    intros e' [j Hj]%Hl%list_elem_of_lookup_1 Hu.
    destruct (Nat.lt_trichotomy j i) as [Hlt|[->|Hgt]].
    - by destruct (Hfirst j e' Hlt Hj).
    - assert (e' = e) as -> by congruence. apply key_le_refl.
    - apply (StronglySorted_lookup
               (λ x y, key_le (entry_key x) (entry_key y)) l i j e e');
        [apply (sorted_StronglySorted entry_key)|done..]. }
  split_and!.
  - apply first_per_user_users.
  - intros user. split.
    + intros (row & (e & He & -> & _)%Hbest & <-). by exists e.
    + intros (e & He%Hl & <-).
      apply (first_per_user_complete l ∅ e He), not_elem_of_empty.
  - intros row (e & He & -> & Hb)%Hbest. exists e. split_and!; [done..|].
    intros e' He' Hu. apply key_le_entry. by apply Hb.
  - apply first_per_user_sorted, (sorted_StronglySorted entry_key).
Qed.

End api_server.

(** ** server.py: the list of problems *)

Section listing.
Import PyText Listing.

Local Abbreviation J := ".json".

Lemma append_cons c s1 s2 : String c s1 +:+ s2 = String c (s1 +:+ s2).
Proof. reflexivity. Qed.

Lemma prefix_json_app s :
  String.prefix J (s +:+ J) = true → s = "" ∨ String.prefix J s = true.
Proof.
  destruct s as [|a0 [|a1 [|a2 [|a3 [|a4 s]]]]];
    rewrite ?append_cons; cbn [String.prefix]; auto;
    repeat (match goal with
            | |- context [ascii_dec ?a ?b] =>
                destruct (ascii_dec a b); subst; cbn [String.prefix]
            end; try done; auto).
  intros _. right. by destruct s.
Qed.

Lemma contains_cons needle c rest :
  contains needle (String c rest) = false →
  String.prefix needle (String c rest) = false ∧ contains needle rest = false.
Proof. cbn [contains]. by intros [? ?]%orb_false_iff. Qed.

(** Taking the extension off a name that has it once gives the name. *)
Lemma replace_json name :
  contains J name = false → replace (name +:+ J) J "" = name.
Proof.
  unfold replace. induction name as [|c name IH]; [done|].
  intros [Hp Hc]%contains_cons.
  change ((String c name) +:+ J) with (String c (name +:+ J)).
  cbn [replace_from].
  destruct (String.prefix J (String c (name +:+ J))) eqn:Hpre.
  - apply (prefix_json_app (String c name)) in Hpre as [?|?]; congruence.
  - by rewrite IH.
Qed.

Lemma endswith_cons c s suffix :
  endswith (String c s) suffix
  = String.eqb (String c s) suffix || endswith s suffix.
Proof. reflexivity. Qed.

Lemma endswith_app s suffix : endswith (s +:+ suffix) suffix = true.
Proof.
  induction s as [|c s IH].
  - destruct suffix as [|c suffix]; [done|].
    change ("" +:+ String c suffix) with (String c suffix).
    rewrite endswith_cons. by rewrite String.eqb_refl.
  - rewrite append_cons, endswith_cons, IH. apply orb_true_r.
Qed.

Lemma endswith_spec s suffix :
  endswith s suffix = true → ∃ stem, s = stem +:+ suffix.
Proof.
  induction s as [|c s IH].
  - simpl. rewrite orb_false_r. destruct suffix; [|done]. by exists "".
  - rewrite endswith_cons.
    intros [Heq|(stem & ->)%IH]%orb_true_iff.
    + apply String.eqb_eq in Heq as <-. by exists "".
    + by exists (String c stem).
Qed.

(** X21. The list of problems holds, in the order of the directory, a name
    for each file whose name ends in [.json] and whose content loads and
    has one of the two test keys, and nothing else; no directory gives the
    empty list. The name is the file name with every [.json] in it
    removed: a problem stored as [<id>.json] is listed as [<id>] when
    [<id>] itself contains no [.json]. *)
Theorem listed_problems :
  list_problems None = []
  ∧ (∀ files id,
       id ∈ list_problems (Some files) ↔
       ∃ stem public_tests hidden_tests,
         (stem +:+ ".json", Keys public_tests hidden_tests) ∈ files
         ∧ public_tests || hidden_tests = true
         ∧ id = replace (stem +:+ ".json") ".json" "")
  ∧ (∀ files id public_tests hidden_tests,
       (id +:+ ".json", Keys public_tests hidden_tests) ∈ files →
       public_tests || hidden_tests = true →
       contains ".json" id = false →
       id ∈ list_problems (Some files))
  ∧ (∀ files, length (list_problems (Some files)) ≤ length files)%nat.
Proof.
  assert (∀ files id,
            id ∈ list_problems (Some files) ↔
            ∃ stem public_tests hidden_tests,
              (stem +:+ J, Keys public_tests hidden_tests) ∈ files
              ∧ public_tests || hidden_tests = true
              ∧ id = replace (stem +:+ J) J "") as Hiff.
  { intros files id. unfold list_problems. rewrite list_elem_of_omap. split.
    - intros ([file data] & Hin & Hl). unfold listed in Hl. simpl in Hl.
      destruct (endswith file J) eqn:He; [|done].
      destruct data as [|p h]; [done|].
      destruct (p || h) eqn:Hk; [|done]. injection Hl as <-.
      apply endswith_spec in He as [stem ->]. by exists stem, p, h.
    - intros (stem & p & h & Hin & Hk & ->).
      exists (stem +:+ J, Keys p h). split; [done|]. unfold listed. simpl.
      by rewrite endswith_app, Hk. }
  split_and!; [done|exact Hiff| |].
  - intros files id p h Hin Hk Hc. apply Hiff. exists id, p, h.
    split_and!; [done..|]. by rewrite replace_json.
  - intros files. unfold list_problems.
    induction files as [|f files IH]; [done|].
    cbn [omap list_omap length] in *.
    destruct (listed f.1 f.2); cbn [length]; lia.
Qed.

End listing.

(** ** database.py: what the two functions answer *)

Section user_functions.
Import Utf8 PyText Database.

Lemma finally_close_inl {A} sys (pending : string + A) e :
  finally_close sys pending = inl e ↔
  cur_close sys = Some e
  ∨ cur_close sys = None
    ∧ (conn_close sys = Some e
       ∨ conn_close sys = None ∧ pending = inl e).
Proof.
  unfold finally_close. destruct (cur_close sys) as [e1|].
  - split; [intros [= ->]; by left|]. by intros [[= ->]|[? _]].
  - destruct (conn_close sys) as [e2|].
    + split; [intros [= ->]; right; split; [done|by left]|].
      by intros [?|[_ [[= ->]|[? _]]]].
    + split; [intros ->; right; split; [done|by right]|].
      by intros [?|[_ [?|[_ ->]]]].
Qed.

(** The [try] statement of [create_user] ends with an exception exactly
    when its body fails and the rollback of the handler fails too. *)
Lemma create_user_try_inl sys username email bs password e :
  create_user_try sys username email bs password = inl e ↔
  rollback sys = Some e
  ∧ ∀ h id, hash sys (truncated bs password) = inr h →
            insert sys username email h ≠ Inserted id.
Proof.
  unfold create_user_try, rolled_back.
  destruct (hash sys _) as [eh|h].
  - destruct (rollback sys) as [er|].
    + split; [by intros [= ->]|by intros [[= ->] _]].
    + split; [done|by intros [? _]].
  - destruct (insert sys username email h) as [id|m|m] eqn:Hi.
    + split; [done|]. intros [_ H]. by destruct (H h id).
    + destruct (rollback sys) as [er|].
      * split; [intros [= ->]; split; [done|]; intros ?? [= <-]; congruence|].
        by intros [[= ->] _].
      * split; [|by intros [? _]].
        destruct (contains _ _); [done|]. by destruct (contains _ _).
    + destruct (rollback sys) as [er|].
      * split; [intros [= ->]; split; [done|]; intros ?? [= <-]; congruence|].
        by intros [[= ->] _].
      * split; [done|by intros [? _]].
Qed.

(** X22. [create_user] raises for a password that cannot be encoded, for a
    connection or a cursor that cannot be had, for a [close] that fails in
    the [finally] block (whatever the [try] statement did, a committed
    insertion included), and when the insertion fails and the rollback of
    the handler fails too; in no other case. [verify_user] raises exactly
    when the connection, the cursor or a [close] fails. It succeeds only
    on a row that the database returned and on a true answer of the hash
    check for the truncated password, and, where it returns, it answers an
    unknown name and a wrong password with the same failure. *)
Theorem user_functions_outcomes sys username email password :
  (∀ e, create_user sys username email password = inl e ↔
        encode password = None ∧ e = encode_error sys password
        ∨ ∃ bs, encode password = Some bs
            ∧ (connect sys = Some e
               ∨ connect sys = None
                 ∧ (cursor sys = Some e
                    ∨ cursor sys = None
                      ∧ (cur_close sys = Some e
                         ∨ cur_close sys = None
                           ∧ (conn_close sys = Some e
                              ∨ conn_close sys = None
                                ∧ rollback sys = Some e
                                ∧ ∀ h id,
                                    hash sys (truncated bs password) = inr h →
                                    insert sys username email h
                                    ≠ Inserted id)))))
  ∧ (∀ e, verify_user sys username password = inl e ↔
        connect sys = Some e
        ∨ connect sys = None
          ∧ (cursor sys = Some e
             ∨ cursor sys = None
               ∧ (cur_close sys = Some e
                  ∨ cur_close sys = None ∧ conn_close sys = Some e)))
  ∧ (∀ id name mail,
       verify_user sys username password = inr (Success id name mail) →
       ∃ user q,
         select sys username = inr (Some user)
         ∧ truncate_password password = Some q
         ∧ verify sys q (User.hashed_password user) = inr true
         ∧ id = User.id user ∧ name = User.username user
         ∧ mail = Some (User.email user))
  ∧ (∀ o, verify_user sys username password = inr o →
     (select sys username = inr None → o = Failure "Invalid credentials")
     ∧ (∀ user q,
          select sys username = inr (Some user) →
          truncate_password password = Some q →
          verify sys q (User.hashed_password user) = inr false →
          o = Failure "Invalid credentials")).
Proof.
  split_and!.
  - intros e. unfold create_user.
    destruct (encode password) as [bs|].
    2:{ split; [intros [= <-]; by left|].
        intros [[_ ->]|(bs & ? & _)]; done. }
    assert (∀ P : list N → Prop,
              (∃ bs', Some bs = Some bs' ∧ P bs') ↔ P bs) as Hbs.
    { intros P. split; [by intros (? & [= <-] & ?)|eauto]. }
    destruct (connect sys) as [e1|].
    { split; [intros [= ->]; right; exists bs; split; [done|by left]|].
      intros [[? _]|(bs' & _ & [[= ->]|[? _]])]; done. }
    destruct (cursor sys) as [e2|].
    { split.
      - intros [= ->]. right. exists bs. split; [done|]. right.
        split; [done|]. by left.
      - intros [[? _]|(bs' & _ & [?|[_ [[= ->]|[? _]]]])]; done. }
    rewrite finally_close_inl, create_user_try_inl. split.
    + intros H. right. exists bs. split; [done|]. right. split; [done|].
      right. split; [done|]. exact H.
    + intros [[? _]|(bs' & [= <-] & [?|[_ [?|[_ H]]]])]; done.
  - intros e. unfold verify_user.
    destruct (connect sys) as [e1|].
    { split; [intros [= ->]; by left|]. by intros [[= ->]|[? _]]. }
    destruct (cursor sys) as [e2|].
    { split; [intros [= ->]; right; split; [done|by left]|].
      by intros [?|[_ [[= ->]|[? _]]]]. }
    rewrite finally_close_inl. split.
    + intros [H|[H1 [H|[_ ?]]]]; [| |done].
      * right. split; [done|]. right. split; [done|]. by left.
      * right. split; [done|]. right. split; [done|]. right. by split.
    + intros [?|[_ [?|[_ [H|[H1 H2]]]]]]; [done|done|by left|].
      right. split; [done|]. by left.
  - intros id name mail. unfold verify_user.
    destruct (connect sys); [done|]. destruct (cursor sys); [done|].
    unfold finally_close.
    destruct (cur_close sys); [done|]. destruct (conn_close sys); [done|].
    unfold verify_user_try.
    destruct (select sys username) as [?|[user|]]; [done| |done].
    destruct (truncate_password password) as [q|]; [|done].
    destruct (verify sys q _) as [?|[]] eqn:Hv; [done| |done].
    intros [= <- <- <-]. by exists user, q.
  - intros o. unfold verify_user.
    destruct (connect sys); [done|]. destruct (cursor sys); [done|].
    unfold finally_close.
    destruct (cur_close sys); [done|]. destruct (conn_close sys); [done|].
    intros [= <-]. unfold verify_user_try. split.
    + by intros ->.
    + intros user q -> -> ->. done.
Qed.

End user_functions.
From Stdlib Require Import ZifyBool.

(** ** UTF-8 *)

Section utf8.
Import Utf8.

Local Ltac div_lia := Z.to_euclidean_division_equations; lia.

Local Ltac decide_tests :=
  repeat match goal with
         | |- context [if ?b then _ else _] =>
             first [ replace b with true by (symmetry; unfold cont, is_surrogate; zify; div_lia)
                   | replace b with false by (symmetry; unfold cont, is_surrogate; zify; div_lia) ]
         end.

Lemma decode_encode_char c b rest :
  encode_char c = Some b → decode (b ++ rest) = cons c <$> decode rest.
Proof.
  unfold encode_char, is_surrogate.
  destruct (N.ltb_spec c 0x80).
  { intros [= <-]. simpl. by decide_tests. }
  destruct (N.ltb_spec c 0x800).
  { intros [= <-]. cbn [app decode]. decide_tests.
    do 2 f_equal. zify; div_lia. }
  destruct (N.ltb_spec c 0x10000).
  { destruct (N.leb_spec 0xD800 c), (N.ltb_spec c 0xE000); simpl; try done;
      intros [= <-]; cbn [app decode]; cbv zeta; decide_tests;
      do 2 f_equal; zify; div_lia. }
  destruct (N.ltb_spec c 0x110000); [|done].
  intros [= <-]. cbn [app decode]. cbv zeta. decide_tests.
  do 2 f_equal. zify; div_lia.
Qed.

Lemma encode_cons c s bs :
  encode (c :: s) = Some bs ↔
  ∃ b bs', encode_char c = Some b ∧ encode s = Some bs' ∧ bs = b ++ bs'.
Proof.
  simpl. destruct (encode_char c) as [b|], (encode s) as [bs'|]; split;
    try done; try (by intros (? & ? & ? & ? & ?)).
  - intros [= <-]. eauto.
  - by intros (? & ? & [= <-] & [= <-] & ->).
Qed.

Lemma encode_app s1 s2 bs :
  encode (s1 ++ s2) = Some bs ↔
  ∃ b1 b2, encode s1 = Some b1 ∧ encode s2 = Some b2 ∧ bs = b1 ++ b2.
Proof.
  revert bs. induction s1 as [|c s1 IH]; intros bs.
  - simpl. split; [by eauto|]. by intros (? & ? & [= <-] & ? & ->).
  - rewrite <- app_comm_cons, !encode_cons. split.
    + intros (b & bs' & Hb & (b1 & b2 & H1 & H2 & ->)%IH & ->).
      exists (b ++ b1), b2. rewrite encode_cons, app_assoc. eauto 10.
    + intros (b1' & b2 & (b & b1 & Hb & H1 & ->)%encode_cons & H2 & ->).
      exists b, (b1 ++ b2). rewrite IH, <- app_assoc. eauto 10.
Qed.

Lemma encode_char_length c b :
  encode_char c = Some b → (1 ≤ length b ≤ 4)%nat.
Proof.
  unfold encode_char.
  repeat (destruct (_ <? _)%N; [intros [= <-]; simpl; lia|]);
    try done.
  destruct (c <? 0x10000)%N.
  - destruct (is_surrogate c); [done|]. intros [= <-]. simpl. lia.
  - destruct (c <? 0x110000)%N; [|done]. intros [= <-]. simpl. lia.
Qed.

(** A text is what its bytes decode to. *)
Lemma decode_encode_app s : ∀ bs rest,
  encode s = Some bs → decode (bs ++ rest) = app s <$> decode rest.
Proof.
  induction s as [|c s IH]; intros bs rest.
  - intros [= <-]. simpl. by destruct (decode rest).
  - intros (b & bs' & Hb & Hs & ->)%encode_cons.
    rewrite <- app_assoc, (decode_encode_char c b) by done.
    rewrite (IH bs') by done. by destruct (decode rest).
Qed.

Lemma decode_encode s bs : encode s = Some bs → decode bs = Some s.
Proof.
  intros H. rewrite <- (app_nil_r bs), (decode_encode_app s) by done.
  simpl. by rewrite app_nil_r.
Qed.

(** The bytes of a character, cut short, do not decode. *)
Lemma decode_take c b n :
  encode_char c = Some b → (0 < n < length b)%nat → decode (take n b) = None.
Proof.
  unfold encode_char, is_surrogate.
  destruct (N.ltb_spec c 0x80).
  { intros [= <-]. simpl. lia. }
  destruct (N.ltb_spec c 0x800).
  { intros [= <-] Hn. destruct n as [|[|n]]; simpl in Hn; try lia.
    cbn [take decode]. by decide_tests. }
  destruct (N.ltb_spec c 0x10000).
  { destruct (N.leb_spec 0xD800 c), (N.ltb_spec c 0xE000);
      cbn [andb]; try done;
      intros [= <-] Hn; destruct n as [|[|[|n]]]; simpl in Hn; try lia;
      cbn [take decode]; by decide_tests. }
  destruct (N.ltb_spec c 0x110000); [|done].
  intros [= <-] Hn. destruct n as [|[|[|[|n]]]]; simpl in Hn; try lia;
    cbn [take decode]; by decide_tests.
Qed.

Lemma decode_cut c pre suf :
  encode_char c = Some (pre ++ suf) → pre ≠ [] → suf ≠ [] → decode pre = None.
Proof.
  intros Hc Hpre Hsuf.
  rewrite <- (take_app_length pre suf).
  apply (decode_take c); [done|]. rewrite length_app.
  destruct pre, suf; simpl; try done; lia.
Qed.

(** What the first [n] bytes of a text are: the bytes of its first [k]
    characters, and then a part of the bytes of the next one. *)
Lemma take_encode s : ∀ bs n,
  encode s = Some bs → (n ≤ length bs)%nat →
  ∃ k bk pre,
    encode (take k s) = Some bk ∧ take n bs = bk ++ pre
    ∧ (pre = [] ∧ (k = length s ∨ ∃ c, s !! k = Some c)
       ∨ pre ≠ [] ∧ ∃ c suf, s !! k = Some c
                      ∧ encode_char c = Some (pre ++ suf) ∧ suf ≠ []).
Proof.
  induction s as [|c s IH]; intros bs n.
  - intros [= <-] Hn. exists 0%nat, [], []. split_and!; [done| |by left; auto].
    by rewrite take_nil.
  - intros (b & bs' & Hb & Hs & ->)%encode_cons Hn.
    destruct (decide (n < length b)%nat) as [Hlt|Hge].
    + exists 0%nat, [], (take n b). rewrite take_app_le by lia.
      split_and!; [done..|].
      destruct (decide (n = 0)%nat) as [->|Hn0].
      * left. split; [done|]. right. by exists c.
      * right. split.
        { intros Hnil%(f_equal length). rewrite length_take in Hnil.
          simpl in Hnil. lia. }
        exists c, (drop n b). rewrite take_drop. split_and!; [done..|].
        intros Hnil%(f_equal length). rewrite length_drop in Hnil.
        simpl in Hnil. lia.
    + rewrite length_app in Hn.
      destruct (IH bs' (n - length b)%nat Hs) as (k & bk & pre & Hk & Ht & Hpre);
        [lia|].
      exists (S k), (b ++ bk), pre. split_and!.
      * simpl. by rewrite Hb, Hk.
      * rewrite take_app_ge by lia. by rewrite Ht, app_assoc.
      * destruct Hpre as [[-> [->|?]]|[? ?]]; [left|left|right]; by auto.
Qed.

End utf8.

(** ** database.py: the 72 bytes of a password *)

Section password.
Import Utf8 Database.

(** The loop finds the last whole character. *)
Lemma shorten_spec s k bk bs pw : ∀ pre,
  encode (take k s) = Some bk →
  take (length bk + length pre) bs = bk ++ pre →
  (0 < length bk)%nat →
  (pre = [] ∨ ∃ c suf, encode_char c = Some (pre ++ suf) ∧ suf ≠ []) →
  shorten (length bk + length pre) bs pw = take k s.
Proof.
  intros pre Hk. induction pre as [|x pre IH] using rev_ind; intros Ht Hpos Hpre.
  - rewrite Nat.add_0_r in *. rewrite app_nil_r in Ht.
    destruct (length bk) as [|m] eqn:Hm; [lia|].
    cbn [shorten]. rewrite Ht. by rewrite (decode_encode _ _ Hk).
  - destruct Hpre as [Hnil|(c & suf & Hc & Hsuf)]; [by destruct pre|].
    rewrite length_app in *. simpl in *.
    replace (length bk + (length pre + 1))%nat
      with (S (length bk + length pre)) in * by lia.
    cbn [shorten]. rewrite Ht.
    rewrite (decode_encode_app _ _ _ Hk).
    rewrite (decode_cut c (pre ++ [x]) suf); [|done|by destruct pre|done].
    simpl. apply IH; [|done|].
    + assert (take (length bk + length pre) bs
              = take (length bk + length pre)
                  (take (S (length bk + length pre)) bs)) as ->.
      { rewrite take_take. f_equal. lia. }
      rewrite Ht, app_assoc, take_app_le by (rewrite length_app; lia).
      rewrite take_ge; [done|]. rewrite length_app. lia.
    + destruct pre as [|y pre]; [by left|]. right.
      exists c, (x :: suf). split; [|done]. by rewrite <- app_assoc in Hc.
Qed.

Lemma encode_lookup s bs k c :
  encode s = Some bs → s !! k = Some c → ∃ b, encode_char c = Some b.
Proof.
  revert bs k. induction s as [|c0 s IH]; intros bs k; [done|].
  intros (b & bs' & Hb & Hs & ->)%encode_cons.
  destruct k as [|k]; simpl; [intros [= <-]; eauto|]. by apply (IH bs').
Qed.

Lemma encode_take s bs k :
  encode s = Some bs → ∃ bk, encode (take k s) = Some bk ∧ bk `prefix_of` bs.
Proof.
  intros Hs. rewrite <- (take_drop k s) in Hs.
  apply encode_app in Hs as (b1 & b2 & H1 & _ & ->).
  exists b1. split; [done|]. by apply prefix_app_r.
Qed.

(** What the loop keeps of a password of more than 72 bytes. *)
Lemma shorten_72 p bs :
  encode p = Some bs → (72 < length bs)%nat →
  ∃ k bk,
    shorten 72 bs p = take k p
    ∧ encode (take k p) = Some bk
    ∧ (length bk ≤ 72)%nat
    ∧ bk `prefix_of` bs
    ∧ ∃ c b, p !! k = Some c ∧ encode_char c = Some b
             ∧ (72 < length bk + length b)%nat.
Proof.
  intros Hp Hlong.
  destruct (take_encode p bs 72 Hp) as (k & bk & pre & Hk & Ht & Hpre); [lia|].
  assert (length bk + length pre = 72)%nat as Hlen.
  { rewrite <- length_app, <- Ht, length_take. lia. }
  assert (bk `prefix_of` bs) as Hprefix.
  { exists (pre ++ drop 72 bs). by rewrite app_assoc, <- Ht, take_drop. }
  assert (length pre ≤ 3)%nat as Hpre3.
  { destruct Hpre as [[-> _]|[_ (c & suf & _ & Hc & Hsuf)]]; [simpl; lia|].
    apply encode_char_length in Hc. rewrite length_app in Hc.
    destruct suf; [done|]. simpl in Hc. lia. }
  exists k, bk. split_and!; [|done|lia|done|].
  - rewrite <- Hlen. apply shorten_spec; [done| |lia|].
    + by rewrite Hlen.
    + destruct Hpre as [[-> _]|[_ (c & suf & _ & Hc & Hsuf)]]; eauto.
  - destruct Hpre as [[-> [->|[c Hc]]]|[Hne (c & suf & Hc & Hb & Hsuf)]].
    + rewrite take_ge in Hk by done. simpl in Hlen.
      assert (bk = bs) as -> by congruence. lia.
    + destruct (encode_lookup _ _ _ _ Hp Hc) as [b Hb].
      exists c, b. split_and!; [done..|].
      apply encode_char_length in Hb. simpl in Hlen. lia.
    + exists c, (pre ++ suf). split_and!; [done..|].
      rewrite length_app. destruct suf; [done|]. simpl. lia.
Qed.

(** X13. A password whose UTF-8 form has more than 72 bytes is cut to the
    longest run of its leading characters whose bytes fit in 72 (the next
    character would not fit); a shorter one is left as it is. The loop that
    drops the bytes of a cut character always ends on such a run. *)
Theorem password_is_cut_at_a_character p bs :
  encode p = Some bs →
  ∃ k bk,
    truncate_password p = Some (take k p)
    ∧ encode (take k p) = Some bk
    ∧ (length bk ≤ 72)%nat
    ∧ bk `prefix_of` bs
    ∧ if (72 <? length bs)%nat
      then ∃ c b, p !! k = Some c ∧ encode_char c = Some b
                  ∧ (72 < length bk + length b)%nat
      else k = length p.
Proof.
  intros Hp. unfold truncate_password, truncated. rewrite Hp.
  destruct (Nat.ltb_spec 72 (length bs)) as [Hlong|Hshort].
  - destruct (shorten_72 p bs Hp Hlong) as (k & bk & -> & Hk & Hlen & Hpre & Hnext).
    by exists k, bk.
  - exists (length p), bs. rewrite take_ge by done. by split_and!.
Qed.

End password.

Section password_use.
Import Utf8 PyText Database Endpoints Auth.

(** A password of 71 letters, a euro sign and one more letter: 75 bytes. *)
Lemma password_is_cut_at_a_character_witness :
  ∃ k bk,
    truncate_password (replicate 71 97%N ++ [0x20AC%N; 98%N])
      = Some (take k (replicate 71 97%N ++ [0x20AC%N; 98%N]))
    ∧ encode (take k (replicate 71 97%N ++ [0x20AC%N; 98%N])) = Some bk
    ∧ (length bk ≤ 72)%nat.
Proof.
  destruct (encode (replicate 71 97%N ++ [0x20AC%N; 98%N])) as [bs|] eqn:Hbs;
    [|by vm_compute in Hbs].
  destruct (password_is_cut_at_a_character _ bs Hbs)
    as (k & bk & H1 & H2 & H3 & _).
  by exists k, bk.
Defined.

Lemma truncate_password_fixed p bs :
  encode p = Some bs →
  ∃ q bq, truncate_password p = Some q ∧ encode q = Some bq
          ∧ truncated bs p = q ∧ truncated bq q = q.
Proof.
  intros Hp. unfold truncate_password. rewrite Hp. unfold truncated at 1 2.
  destruct (Nat.ltb_spec 72 (length bs)) as [Hlong|Hshort].
  - destruct (shorten_72 p bs Hp Hlong) as (k & bk & -> & Hk & Hlen & _).
    exists (take k p), bk. split_and!; [done..|].
    unfold truncated. by destruct (Nat.ltb_spec 72 (length bk)); [lia|].
  - exists p, bs. split_and!; [done..|].
    unfold truncated. by destruct (Nat.ltb_spec 72 (length bs)); [lia|].
Qed.

(** X14. The truncated password is as good as the password: truncating it
    again changes nothing, and [create_user], [verify_user], [signup] and
    [login] answer for it what they answer for the full password, whatever
    the database and the hashing library do. *)
Theorem truncated_password_is_as_good p bs :
  encode p = Some bs →
  ∃ q, truncate_password p = Some q
    ∧ truncate_password q = Some q
    ∧ (∀ sys username,
         verify_user sys username q = verify_user sys username p)
    ∧ (∀ sys username email,
         create_user sys username email q = create_user sys username email p)
    ∧ (∀ available sys username,
         login available sys
           {| LoginRequest.username := username; LoginRequest.password := q |}
         = login available sys
             {| LoginRequest.username := username;
                LoginRequest.password := p |})
    ∧ (∀ str_http available sys username email,
         signup str_http available sys
           {| SignupRequest.username := username;
              SignupRequest.email := email; SignupRequest.password := q |}
         = signup str_http available sys
             {| SignupRequest.username := username;
                SignupRequest.email := email; SignupRequest.password := p |}).
Proof.
  intros Hp.
  destruct (truncate_password_fixed p bs Hp) as (q & bq & Ht & Hq & Hpq & Hqq).
  assert (truncate_password q = Some q) as Htq.
  { unfold truncate_password. by rewrite Hq, Hqq. }
  assert (∀ sys username,
            verify_user sys username q = verify_user sys username p) as Hv.
  { intros sys username. unfold verify_user, verify_user_try.
    by rewrite Ht, Htq. }
  assert (∀ sys username email,
            create_user sys username email q
            = create_user sys username email p) as Hc.
  { intros sys username email. unfold create_user, create_user_try.
    by rewrite Hp, Hq, Hpq, Hqq. }
  exists q. split_and!; [done..| |].
  - intros available sys username. unfold login. simpl. by rewrite Hv.
  - intros str_http available sys username email. unfold signup. simpl.
    by rewrite Hc.
Qed.

Lemma truncated_password_is_as_good_witness :
  ∃ q, truncate_password (replicate 80 97%N) = Some q
       ∧ truncate_password q = Some q.
Proof.
  destruct (encode (replicate 80 97%N)) as [bs|] eqn:Hbs;
    [|by vm_compute in Hbs].
  destruct (truncated_password_is_as_good _ bs Hbs) as (q & H1 & H2 & _).
  by exists q.
Defined.

(** X15. [signup] never answers 400: when [create_user] refuses (a name or
    an address already taken, or any other failure it reports), the answer
    is 500, with the text of the 400 as detail. [login] answers 401 exactly
    when the database is available and [verify_user] refuses. Without the
    database both answer 503, and a successful signup returns the new
    user under the name of the request. *)
Theorem signup_and_login_answers str_http available sys :
  (∀ request detail,
     signup str_http available sys request ≠ Raise 400 detail)
  ∧ (∀ request error,
       available = true →
       create_user sys (SignupRequest.username request)
         (SignupRequest.email request) (SignupRequest.password request)
       = inr (Failure error) →
       signup str_http available sys request
       = Raise 500 (str_http 400 error))
  ∧ (∀ request error,
       login available sys request = Raise 401 error ↔
       available = true
       ∧ verify_user sys (LoginRequest.username request)
           (LoginRequest.password request) = inr (Failure error))
  ∧ (∀ request1 request2,
       available = false →
       (∃ detail, signup str_http available sys request1 = Raise 503 detail)
       ∧ login available sys request2
         = Raise 503 "Database service unavailable")
  ∧ (∀ request value,
       signup str_http available sys request = Return value →
       ∃ id, value = Success id (SignupRequest.username request) None).
Proof.
  split_and!.
  - intros request detail. unfold signup. destruct available; simpl; [|done].
    destruct (create_user _ _ _ _) as [e|[]]; done.
  - intros request error -> Hc. unfold signup. simpl. by rewrite Hc.
  - intros request error. unfold login. destruct available; simpl.
    + destruct (verify_user _ _ _) as [e|[]]; split; try done.
      * by intros [_ ?].
      * by intros [_ ?].
      * by intros [= ->].
      * by intros [_ [= ->]].
    + split; [done|]. by intros [? _].
  - intros request1 request2 ->. split; [|done]. unfold signup. simpl. eauto.
  - intros request value. unfold signup. destruct available; simpl; [|done].
    destruct (create_user _ _ _ _) as [e|[id u m|error]] eqn:Hc; try done.
    intros [= <-]. unfold create_user, finally_close in Hc.
    destruct (encode _); [|done]. destruct (connect sys); [done|].
    destruct (cursor sys); [done|]. destruct (cur_close sys); [done|].
    destruct (conn_close sys); [done|].
    unfold create_user_try, rolled_back in Hc.
    destruct (hash sys _); [by destruct (rollback sys)|].
    destruct (insert sys _ _ _); [|destruct (rollback sys); [done|]..].
    + injection Hc as <- <- <-. eauto.
    + destruct (contains _ _); [done|]. by destruct (contains _ _).
    + done.
Qed.

End password_use.
